(** * The Malayalam catalog add-on ([app.py]): refresh pipeline and catalog

    A shallow embedding of [fetch_and_cache_movies], [to_stremio_meta] and
    [catalog].  The program is dynamically typed Python working on decoded
    JSON, so the embedding keeps the run-time values ([json]), the
    exceptions the interpreter raises on them ([exn]) and the three
    nested [try]/[except] blocks of the refresh routine.

    What is modelled and what is not:
    - every statement that can change the control flow or the data, in
      the order of the source, with the exception it raises on a value of
      the wrong type;
    - the remote service as an arbitrary function from the requests to
      time-outs, failures and responses;
    - the diagnostic [print] lines in two steps.  The first model keeps
      them only through the expressions they evaluate ([len(results)],
      [india_providers.keys()]) and takes writing to the standard output
      to succeed.  The second model (the definitions ending in [_io])
      keeps every [print] and every [sys.stdout.flush()] as a write that
      the standard output can refuse by raising, and is proved to do
      what the first does when no write is refused;
    - decoded objects are values: every object comes fresh from
      [response.json()], so the in-place update [movie["imdb_id"] = ...]
      has no alias to reach;
    - the threads of the process are not modelled: one run of the routine
      and one call of the endpoint are sequential functions. *)

From stdpp Require Import gmap strings list fin_maps pretty.

Set Warnings "-register-all".
#[local] Open Scope string_scope.
#[local] Open Scope Z_scope.
#[local] Open Scope list_scope.

(** ** Run-time values *)

(** What [response.json()] can return.  A JSON number is kept as an
    integer: the program never computes with numbers, and a number that
    is not an integer behaves under every operation applied here (truth
    test, method call, subscript, [len], iteration) like an integer with
    the same truth value.  A string is its UTF-8 bytes.  A Python [dict]
    is a finite map from strings. *)
Inductive json : Type :=
  | JNull
  | JBool (b : bool)
  | JNum (z : Z)
  | JStr (s : string)
  | JArr (l : list json)
  | JObj (d : gmap string json).

(** The exceptions that the modelled statements can raise.  All of them
    derive from [Exception]; [Timeout] is [requests.Timeout], and
    [RequestException] stands for every other failure of [requests.get].
    [OutputError] stands for what a refused write to the standard output
    raises ([OSError] on a broken pipe, [ValueError] on a closed stream,
    [UnicodeEncodeError] for a character the stream cannot encode). *)
Inductive exn : Type :=
  | Timeout
  | RequestException
  | JSONDecodeError
  | AttributeError
  | TypeError
  | KeyError
  | OutputError.

Inductive result (A : Type) : Type :=
  | Ok (a : A)
  | Raise (e : exn).
Arguments Ok {A} a.
Arguments Raise {A} e.

#[global] Instance result_ret : MRet result := fun A a => Ok a.
#[global] Instance result_bind : MBind result := fun A B f r =>
  match r with
  | Ok a => f a
  | Raise e => Raise e
  end.

Definition is_raise {A} (r : result A) : bool :=
  match r with
  | Ok _ => false
  | Raise _ => true
  end.

(** ** The Python operations the program applies to decoded JSON *)

Module Py.

(** [bool(v)]: the truth value tested by [if v] and [not v]. *)
Definition truthy (v : json) : bool :=
  match v with
  | JNull => false
  | JBool b => b
  | JNum z => negb (z =? 0)
  | JStr s => negb (String.eqb s "")
  | JArr l => negb (bool_decide (l = []))
  | JObj d => negb (bool_decide (d = ∅))
  end.

(** [v.get(k, dflt)]; [v.get(k)] is [v.get(k, None)].  Only a [dict] has
    the method. *)
Definition get (v : json) (k : string) (dflt : json) : result json :=
  match v with
  | JObj d => Ok (default dflt (d !! k))
  | _ => Raise AttributeError
  end.

(** [needle in hay] for two strings: substring test. *)
Fixpoint substring_of (needle hay : string) : bool :=
  String.prefix needle hay ||
  match hay with
  | EmptyString => false
  | String _ hay' => substring_of needle hay'
  end.

(** [k == x] for a string [k]: only an equal string compares equal. *)
Definition eq_str (k : string) (x : json) : bool :=
  match x with
  | JStr s => String.eqb k s
  | _ => false
  end.

(** [k in v] for a string [k]: key of a dict, element of a list,
    substring of a string; any other value is not a container. *)
Definition contains (k : string) (v : json) : result bool :=
  match v with
  | JObj d => Ok (bool_decide (is_Some (d !! k)))
  | JArr l => Ok (existsb (eq_str k) l)
  | JStr s => Ok (substring_of k s)
  | _ => Raise TypeError
  end.

(** [v[k]] for a string [k]: lists and strings want integer indices,
    the other values are not subscriptable. *)
Definition getitem (v : json) (k : string) : result json :=
  match v with
  | JObj d =>
      match d !! k with
      | Some x => Ok x
      | None => Raise KeyError
      end
  | _ => Raise TypeError
  end.

(** [v[k] = x] for a string [k]; the updated object is returned. *)
Definition setitem (v : json) (k : string) (x : json) : result json :=
  match v with
  | JObj d => Ok (JObj (<[k := x]> d))
  | _ => Raise TypeError
  end.

(** [len(v)]. *)
Definition len (v : json) : result nat :=
  match v with
  | JArr l => Ok (length l)
  | JObj d => Ok (size d)
  | JStr s => Ok (String.length s)
  | _ => Raise TypeError
  end.

(** The values that [for x in v] goes through: the elements of a list,
    the keys of a dict, the characters of a string. *)
Definition iter (v : json) : result (list json) :=
  match v with
  | JArr l => Ok l
  | JObj d => Ok (JStr <$> (map_to_list d).*1)
  | JStr s => Ok ((λ c, JStr (String c EmptyString)) <$> String.list_ascii_of_string s)
  | _ => Raise TypeError
  end.

(** [v.startswith(p)]: a method of strings only. *)
Definition startswith (v : json) (p : string) : result bool :=
  match v with
  | JStr s => Ok (String.prefix p s)
  | _ => Raise AttributeError
  end.

(** [list(v.keys())]: a method of dicts only. *)
Definition keys (v : json) : result (list string) :=
  match v with
  | JObj d => Ok (map_to_list d).*1
  | _ => Raise AttributeError
  end.

(** What a [set] compares: [hash] and [==] identify [True] with [1] and
    [False] with [0]; lists and dicts are unhashable. *)
Inductive hashable : Type :=
  | HNone
  | HInt (z : Z)
  | HStr (s : string).

Definition hash (v : json) : result hashable :=
  match v with
  | JNull => Ok HNone
  | JBool b => Ok (HInt (if b then 1 else 0))
  | JNum z => Ok (HInt z)
  | JStr s => Ok (HStr s)
  | JArr _ | JObj _ => Raise TypeError
  end.

#[global] Instance hashable_eq_dec : EqDecision hashable.
Proof. solve_decision. Defined.

#[global] Instance hashable_countable : Countable hashable.
Proof.
  refine (inj_countable'
    (λ h, match h with
          | HNone => None
          | HInt z => Some (inl z)
          | HStr s => Some (inr s)
          end)
    (λ o, match o with
          | None => HNone
          | Some (inl z) => HInt z
          | Some (inr s) => HStr s
          end) _).
  by intros [].
Defined.

Section Str.
(** [repr] of a list or a dict is left to the interpreter. *)
Variable repr : json → string.

(** [str(v)], which is what an f-string inserts for [{v}]. *)
Definition str (v : json) : string :=
  match v with
  | JNull => "None"
  | JBool true => "True"
  | JBool false => "False"
  | JNum z => pretty z
  | JStr s => s
  | JArr _ | JObj _ => repr v
  end.
End Str.

End Py.

(** ** The remote service and the state of a refresh run *)

(** The arguments of one [requests.get(url, params=..., timeout=...)]. *)
Record request : Type := {
  url : string;
  params : gmap string json;
  timeout : Z
}.

(** A response object: [body] is what [response.json()] returns, [None]
    when it raises because the payload is not JSON. *)
Record response : Type := {
  status_code : Z;
  body : option json
}.

(** How the service reacts to one request. *)
Inductive reply : Type :=
  | TimedOut
  | Failed
  | Answered (r : response).

(** [issued] logs the requests made so far, oldest first.  [final_movies]
    is the local accumulator of the routine; it lives in the state because
    an element appended inside a [try] block stays appended when a later
    statement of the block raises.  [all_movies_cache] is the global. *)
Record state : Type := {
  issued : list request;
  final_movies : list json;
  all_movies_cache : list json
}.

(** Statements: they change the state and either yield a value or raise. *)
Definition M (A : Type) : Type := state → state * result A.

#[global] Instance M_ret : MRet M := λ A a s, (s, Ok a).
#[global] Instance M_bind : MBind M := λ A B f m s,
  match m s with
  | (s', Ok a) => f a s'
  | (s', Raise e) => (s', Raise e)
  end.

Definition lift {A} (r : result A) : M A := λ s, (s, r).

(** [try: body except Exception as e: handler]. *)
Definition try_except {A} (body : M A) (handler : exn → M A) : M A := λ s,
  match body s with
  | (s', Ok a) => (s', Ok a)
  | (s', Raise e) => handler e s'
  end.

(** How one round of a [for] loop ends: by reaching its end or a
    [continue] ([Next]), or by [break]. *)
Inductive flow : Type :=
  | Next
  | Break.

Fixpoint for_each {A} (loop_body : A → M flow) (xs : list A) : M unit :=
  match xs with
  | [] => mret tt
  | x :: rest =>
      c ← loop_body x;
      match c with
      | Next => for_each loop_body rest
      | Break => mret tt
      end
  end.

(** [final_movies = l], reading [final_movies], [final_movies.append(movie)]
    and [all_movies_cache = l]. *)
Definition set_final_movies (l : list json) : M unit := λ s,
  ({| issued := issued s;
      final_movies := l;
      all_movies_cache := all_movies_cache s |}, Ok tt).

Definition get_final_movies : M (list json) := λ s, (s, Ok (final_movies s)).

Definition append_final (movie : json) : M unit := λ s,
  ({| issued := issued s;
      final_movies := final_movies s ++ [movie];
      all_movies_cache := all_movies_cache s |}, Ok tt).

Definition set_all_movies_cache (l : list json) : M unit := λ s,
  ({| issued := issued s;
      final_movies := final_movies s;
      all_movies_cache := l |}, Ok tt).

Definition response_json (r : response) : result json :=
  match body r with
  | Some v => Ok v
  | None => Raise JSONDecodeError
  end.

(** ** Deduplication (the loop over [final_movies]) *)

Fixpoint dedup_loop (movies : list json) (seen_ids : gset Py.hashable)
    (unique_movies : list json) : result (list json) :=
  match movies with
  | [] => Ok unique_movies
  | movie :: rest =>
      imdb_id ← Py.get movie "imdb_id" JNull;
      if Py.truthy imdb_id then
        h ← Py.hash imdb_id;
        if bool_decide (h ∉ seen_ids)
        then dedup_loop rest ({[h]} ∪ seen_ids) (unique_movies ++ [movie])
        else dedup_loop rest seen_ids unique_movies
      else dedup_loop rest seen_ids unique_movies
  end.

Definition deduplicate (movies : list json) : result (list json) :=
  dedup_loop movies ∅ [].

(** ** [fetch_and_cache_movies] *)

Definition TMDB_BASE_URL : string := "https://api.themoviedb.org/3".

Section Refresh.

(** The service answers the [n]-th request of the process as it likes. *)
Variable service : nat → request → reply.
(** The environment: the credential, today's date, and [repr]. *)
Variable TMDB_API_KEY : string.
Variable today : string.
Variable repr : json → string.

Definition requests_get (u : string) (p : gmap string json) (t : Z) : M response := λ s,
  let r := {| url := u; params := p; timeout := t |} in
  let s' := {| issued := issued s ++ [r];
               final_movies := final_movies s;
               all_movies_cache := all_movies_cache s |} in
  match service (length (issued s)) r with
  | TimedOut => (s', Raise Timeout)
  | Failed => (s', Raise RequestException)
  | Answered resp => (s', Ok resp)
  end.

Definition discover_url : string := TMDB_BASE_URL +:+ "/discover/movie".

Definition discover_params (page : Z) : gmap string json :=
  list_to_map [
    ("api_key", JStr TMDB_API_KEY);
    ("with_original_language", JStr "ml");
    ("sort_by", JStr "release_date.desc");
    ("release_date.lte", JStr today);
    ("region", JStr "IN");
    ("page", JNum page) ].

Definition providers_url (movie_id : json) : string :=
  TMDB_BASE_URL +:+ "/movie/" +:+ Py.str repr movie_id +:+ "/watch/providers".

Definition external_ids_url (movie_id : json) : string :=
  TMDB_BASE_URL +:+ "/movie/" +:+ Py.str repr movie_id +:+ "/external_ids".

Definition key_params : gmap string json := {[ "api_key" := JStr TMDB_API_KEY ]}.

(** The innermost [try] block, "Get IMDb ID".  The debug line after the
    [append] evaluates [india_providers.keys()]. *)
Definition get_imdb_id (movie movie_id india_providers : json) : M unit :=
  try_except
    (ext_response ← requests_get (external_ids_url movie_id) key_params 10;
     ext_data ← lift (response_json ext_response);
     imdb_id ← lift (Py.get ext_data "imdb_id" JNull);
     usable ← lift (if Py.truthy imdb_id then Py.startswith imdb_id "tt" else Ok false);
     if usable : bool then
       movie' ← lift (Py.setitem movie "imdb_id" imdb_id);
       _ ← append_final movie';
       _ ← lift (Py.keys india_providers);
       mret tt
     else mret tt)
    (λ e, mret tt).

(** ["results" not in prov_data or "IN" not in prov_data["results"]]. *)
Definition no_india_entry (prov_data : json) : result bool :=
  has_results ← Py.contains "results" prov_data;
  if negb has_results then Ok true
  else
    results ← Py.getitem prov_data "results";
    has_in ← Py.contains "IN" results;
    Ok (negb has_in).

(** ["flatrate" in p or "buy" in p or "rent" in p]. *)
Definition has_provider (india_providers : json) : result bool :=
  flatrate ← Py.contains "flatrate" india_providers;
  if flatrate : bool then Ok true
  else
    buy ← Py.contains "buy" india_providers;
    if buy : bool then Ok true
    else Py.contains "rent" india_providers.

(** The statements inside the middle [try] block, "Check OTT availability
    in India". *)
Definition check_ott_try (movie movie_id : json) : M flow :=
  prov_response ← requests_get (providers_url movie_id) key_params 10;
  prov_data ← lift (response_json prov_response);
  missing ← lift (no_india_entry prov_data);
  if missing : bool then mret Next
  else
    india_providers ← lift (results ← Py.getitem prov_data "results";
                            Py.getitem results "IN");
    available ← lift (has_provider india_providers);
    if negb available then mret Next
    else
      _ ← get_imdb_id movie movie_id india_providers;
      mret Next.

(** The middle [try] block with its handler, which [continue]s. *)
Definition check_ott_availability (movie movie_id : json) : M flow :=
  try_except (check_ott_try movie movie_id) (λ e, mret Next).

(** The body of [for movie in results]. *)
Definition movie_body (movie : json) : M flow :=
  movie_id ← lift (Py.get movie "id" JNull);
  title ← lift (Py.get movie "title" JNull);
  if negb (Py.truthy movie_id) || negb (Py.truthy title) then mret Next
  else check_ott_availability movie movie_id.

(** The statements inside the outer [try] of one page.  The debug line
    before the emptiness test evaluates [len(results)]. *)
Definition page_try (page : Z) : M flow :=
  response ← requests_get discover_url (discover_params page) 15;
  data ← lift (response_json response);
  results ← lift (Py.get data "results" (JArr []));
  _ ← lift (Py.len results);
  if negb (Py.truthy results) then mret Break
  else
    movies ← lift (Py.iter results);
    _ ← for_each movie_body movies;
    mret Next.

(** The body of [for page in range(1, 301)]: both handlers [break]. *)
Definition page_body (page : Z) : M flow :=
  try_except (page_try page)
    (λ e, match e with
          | Timeout => mret Break
          | _ => mret Break
          end).

Definition fetch_and_cache_movies : M unit :=
  _ ← set_final_movies [];
  _ ← for_each page_body (seqZ 1 300);
  final ← get_final_movies;
  unique_movies ← lift (deduplicate final);
  set_all_movies_cache unique_movies.

End Refresh.

(** ** [to_stremio_meta] and [catalog] *)

Definition image_base : string := "https://image.tmdb.org/t/p/".

Section Catalog.

Variable repr : json → string.

(** The conditional expression
    [f"https://image.tmdb.org/t/p/{width}{movie[key]}" if movie.get(key) else None]. *)
Definition image_url (movie : json) (width key : string) : result json :=
  path ← Py.get movie key JNull;
  if Py.truthy path then
    fragment ← Py.getitem movie key;
    Ok (JStr (image_base +:+ width +:+ Py.str repr fragment))
  else Ok JNull.

(** The statements inside the [try] of [to_stremio_meta]; [None] is
    [JNull]. *)
Definition to_stremio_meta_try (movie : json) : result json :=
  imdb_id ← Py.get movie "imdb_id" JNull;
  title ← Py.get movie "title" JNull;
  if negb (Py.truthy imdb_id) || negb (Py.truthy title) then Ok JNull
  else
    poster ← image_url movie "w500" "poster_path";
    description ← Py.get movie "overview" (JStr "");
    releaseInfo ← Py.get movie "release_date" (JStr "");
    background ← image_url movie "w780" "backdrop_path";
    Ok (JObj (list_to_map [
      ("id", imdb_id);
      ("type", JStr "movie");
      ("name", title);
      ("poster", poster);
      ("description", description);
      ("releaseInfo", releaseInfo);
      ("background", background) ])).

Definition to_stremio_meta (movie : json) : json :=
  match to_stremio_meta_try movie with
  | Ok meta => meta
  | Raise e => JNull
  end.

(** [jsonify(v)]: the response that carries [v]. *)
Definition jsonify (v : json) : json := v.

Definition metas_object (metas : list json) : json :=
  JObj {[ "metas" := JArr metas ]}.

(** [[meta for meta in (project(m) for m in cache) if meta]], where
    [project] is the call of [to_stremio_meta]. *)
Fixpoint collect_metas (project : json → result json) (cache : list json)
    : result (list json) :=
  match cache with
  | [] => Ok []
  | m :: rest =>
      meta ← project m;
      metas ← collect_metas project rest;
      Ok (if Py.truthy meta then meta :: metas else metas)
  end.

(** The handler of [catalog] around a comprehension that calls [project]. *)
Definition catalog_with (project : json → result json) (cache : list json) : json :=
  match collect_metas project cache with
  | Ok metas => jsonify (metas_object metas)
  | Raise e => jsonify (metas_object [])
  end.

Definition catalog (all_movies_cache : list json) : json :=
  catalog_with (λ m, Ok (to_stremio_meta m)) all_movies_cache.

End Catalog.

(** ** Vocabulary of the specification *)

(** The state after [reqs] were issued and [added] was appended to the
    accumulator. *)
Definition advance (s : state) (reqs : list request) (added : list json) : state :=
  {| issued := issued s ++ reqs;
     final_movies := final_movies s ++ added;
     all_movies_cache := all_movies_cache s |}.

(** An Accepted Movie: an object with an external identifier that is a
    string starting with [tt] and with a title that is present and not
    empty (true as a Python condition). *)
Definition accepted (m : json) : Prop :=
  ∃ d i t, m = JObj d
    ∧ d !! "imdb_id" = Some (JStr i) ∧ String.prefix "tt" i = true ∧ i ≠ ""
    ∧ d !! "title" = Some t ∧ Py.truthy t = true.

(** The external identifier of a cache element. *)
Definition external_id (m : json) : option json :=
  match m with
  | JObj d => d !! "imdb_id"
  | _ => None
  end.

(** The entry for region [IN] in the reply to a watch-providers lookup. *)
Definition india_entry (r : reply) : option json :=
  match r with
  | Answered resp =>
      match body resp with
      | Some (JObj d) =>
          match d !! "results" with
          | Some (JObj regions) => regions !! "IN"
          | _ => None
          end
      | _ => None
      end
  | _ => None
  end.

(** The regional entry contains the key [k]. *)
Definition offers (k : string) (entry : json) : bool :=
  match Py.contains k entry with
  | Ok b => b
  | Raise _ => false
  end.

Definition any_category (entry : json) : bool :=
  offers "flatrate" entry || offers "buy" entry || offers "rent" entry.

(** The usable external identifier in the reply to an external-ids
    lookup: a string that starts with [tt]. *)
Definition usable_imdb_id (r : reply) : option string :=
  match r with
  | Answered resp =>
      match body resp with
      | Some (JObj d) =>
          match d !! "imdb_id" with
          | Some (JStr i) => if String.prefix "tt" i then Some i else None
          | _ => None
          end
      | _ => None
      end
  | _ => None
  end.

Section Requests.
Variable TMDB_API_KEY : string.
Variable today : string.
Variable repr : json → string.

Definition discover_request (page : Z) : request :=
  {| url := discover_url; params := discover_params TMDB_API_KEY today page; timeout := 15 |}.

Definition providers_request (movie_id : json) : request :=
  {| url := providers_url repr movie_id; params := key_params TMDB_API_KEY; timeout := 10 |}.

Definition external_ids_request (movie_id : json) : request :=
  {| url := external_ids_url repr movie_id; params := key_params TMDB_API_KEY; timeout := 10 |}.
End Requests.

(** An enrichment lookup is a request that is not a discover query. *)
Definition is_discover (r : request) : bool := String.eqb (url r) discover_url.

(** The discover queries among [reqs], in order. *)
Definition discover_queries (reqs : list request) : list request :=
  filter (λ r, is_discover r = true) reqs.

(** Requests that are not discover queries were issued and accepted
    movies were appended: what the work on the candidates of a page does
    to the state. *)
Definition enrichment (s s' : state) : Prop :=
  ∃ reqs added, s' = advance s reqs added
    ∧ Forall (λ r, is_discover r = false) reqs ∧ Forall accepted added.

Definition is_object (v : json) : bool :=
  match v with
  | JObj _ => true
  | _ => false
  end.

(** What a discover query brings.  [PageTimeout] and [PageFailed]: the
    request raises.  [PageEmpty]: the result list is empty, or absent and
    defaulted to the empty list.  [PageResults]: a non-empty list of
    objects.  [PageMalformed]: the request is answered, but the payload
    cannot be processed as a list of objects: it cannot be decoded, it is
    not an object, its [results] is not a list, or one of the results is
    not an object. *)
Inductive page_event : Type :=
  | PageTimeout
  | PageFailed
  | PageMalformed
  | PageEmpty
  | PageResults (movies : list json).

Definition page_event_of (r : reply) : page_event :=
  match r with
  | TimedOut => PageTimeout
  | Failed => PageFailed
  | Answered resp =>
      match body resp with
      | Some (JObj d) =>
          match default (JArr []) (d !! "results") with
          | JArr [] => PageEmpty
          | JArr movies =>
              if forallb is_object movies then PageResults movies else PageMalformed
          | _ => PageMalformed
          end
      | _ => PageMalformed
      end
  end.

(** The request of a page fails: it times out or fails otherwise. *)
Definition request_fails (e : page_event) : Prop :=
  e = PageTimeout ∨ e = PageFailed.

(** The key under which the deduplication step files an external
    identifier: none for an empty (false) or unhashable value. *)
Definition key_of (v : json) : option Py.hashable :=
  if Py.truthy v then
    match Py.hash v with
    | Ok h => Some h
    | Raise _ => None
    end
  else None.

Definition identifier (m : json) : option Py.hashable :=
  external_id m ≫= key_of.

Definition has_identifier (h : Py.hashable) (m : json) : bool :=
  bool_decide (identifier m = Some h).

(** A movie the deduplication step can look at: an object whose external
    identifier, when it has a non-empty one, is hashable. *)
Definition dedupable (m : json) : Prop :=
  ∃ d, m = JObj d
    ∧ ∀ v, d !! "imdb_id" = Some v → Py.truthy v = true → is_raise (Py.hash v) = false.

(** The first occurrence of every identifier that is not in [seen], in
    the order of [movies]. *)
Fixpoint first_occurrences (movies : list json) (seen : gset Py.hashable) : list json :=
  match movies with
  | [] => []
  | m :: rest =>
      match identifier m with
      | Some h =>
          if decide (h ∈ seen) then first_occurrences rest seen
          else m :: first_occurrences rest ({[h]} ∪ seen)
      | None => first_occurrences rest seen
      end
  end.

Section Pages.
Variable service : nat → request → reply.
Variable TMDB_API_KEY : string.
Variable today : string.
Variable repr : json → string.

(** The discover queries for [pages] were issued, in this order and
    among enrichment lookups, and accepted movies were appended. *)
Definition paging (s s' : state) (pages : list Z) : Prop :=
  ∃ reqs added, s' = advance s reqs added
    ∧ discover_queries reqs = discover_request TMDB_API_KEY today <$> pages
    ∧ Forall accepted added.

(** What the discover query for [page] brings when issued in state [s]. *)
Definition page_event_at (page : Z) (s : state) : page_event :=
  page_event_of (service (length (issued s)) (discover_request TMDB_API_KEY today page)).

(** The state after the loop went through all of [pages] without
    stopping; [None] when one of them stops it. *)
Fixpoint pages_through (pages : list Z) (s : state) : option state :=
  match pages with
  | [] => Some s
  | p :: rest =>
      match page_body service TMDB_API_KEY today repr p s with
      | (s', Ok Next) => pages_through rest s'
      | _ => None
      end
  end.
End Pages.

(** The state in which a refresh run starts: the accumulator is empty. *)
Definition start (s : state) : state :=
  {| issued := issued s; final_movies := []; all_movies_cache := all_movies_cache s |}.

(** The Movie Cache invariant. *)
Definition cache_invariant (cache : list json) : Prop :=
  Forall accepted cache ∧ NoDup (external_id <$> cache).

(** A field is false as a Python condition: missing, null, or another
    empty value such as [0] or the empty string. *)
Definition falsy_field (d : gmap string json) (k : string) : Prop :=
  Py.truthy (default JNull (d !! k)) = false.

(** A field is absent: missing or null. *)
Definition absent_field (d : gmap string json) (k : string) : Prop :=
  d !! k = None ∨ d !! k = Some JNull.

Section Entries.
Variable repr : json → string.

(** The image URL of a Catalog Entry for a path fragment: null for a
    fragment that is missing or false as a Python condition. *)
Definition image (width : string) (path : option json) : json :=
  match path with
  | Some fragment =>
      if Py.truthy fragment
      then JStr (image_base +:+ width +:+ Py.str repr fragment)
      else JNull
  | None => JNull
  end.

(** The Catalog Entry of an Accepted Movie. *)
Definition catalog_entry (d : gmap string json) : gmap string json :=
  list_to_map [
    ("id", default JNull (d !! "imdb_id"));
    ("type", JStr "movie");
    ("name", default JNull (d !! "title"));
    ("poster", image "w500" (d !! "poster_path"));
    ("description", default (JStr "") (d !! "overview"));
    ("releaseInfo", default (JStr "") (d !! "release_date"));
    ("background", image "w780" (d !! "backdrop_path")) ].

(** The projection of a cache element; [None] when it fails. *)
Definition projection (m : json) : option json :=
  match m with
  | JObj d =>
      if Py.truthy (default JNull (d !! "imdb_id"))
         && Py.truthy (default JNull (d !! "title"))
      then Some (JObj (catalog_entry d))
      else None
  | _ => None
  end.
End Entries.

(** ** A sample service *)

Module Sample.

Definition obj (fields : list (string * json)) : json := JObj (list_to_map fields).

Definition answer (v : json) : reply :=
  Answered {| status_code := 200; body := Some v |}.

(** No list or dict is formatted in the samples. *)
Definition repr (v : json) : string := "".

Definition key : string := "KEY".
Definition today : string := "2024-05-01".

Definition idle : state :=
  {| issued := []; final_movies := []; all_movies_cache := [] |}.

Definition title_a : json := obj [("id", JNum 10); ("title", JStr "Title A")].
Definition title_b : json := obj [("id", JNum 20); ("title", JStr "Title B")].

Definition page_of (r : request) : option json := params r !! "page".

(** Movie 10 can be rented in India and is [tt1000000]; movie 20 has no
    regional entry. *)
Definition lookups (r : request) : reply :=
  if String.eqb (url r) (providers_url repr (JNum 10)) then
    answer (obj [("results", obj [("IN", obj [("rent", JArr [])])])])
  else if String.eqb (url r) (external_ids_url repr (JNum 10)) then
    answer (obj [("imdb_id", JStr "tt1000000")])
  else if String.eqb (url r) (providers_url repr (JNum 20)) then
    answer (obj [("results", obj [("US", obj [("rent", JArr [])])])])
  else Failed.

(** Page 1 holds the two movies and the later pages are empty. *)
Definition one_page (n : nat) (r : request) : reply :=
  if is_discover r then
    match page_of r with
    | Some (JNum 1) => answer (obj [("results", JArr [title_a; title_b])])
    | _ => answer (obj [("results", JArr [])])
    end
  else lookups r.

(** Pages 1 and 2 hold the same movies and the later pages are empty. *)
Definition overlap (n : nat) (r : request) : reply :=
  if is_discover r then
    match page_of r with
    | Some (JNum 1) | Some (JNum 2) => answer (obj [("results", JArr [title_a; title_b])])
    | _ => answer (obj [("results", JArr [])])
    end
  else lookups r.

(** Page 1 holds the two movies and the query for page 2 times out. *)
Definition times_out (n : nat) (r : request) : reply :=
  if is_discover r then
    match page_of r with
    | Some (JNum 1) => answer (obj [("results", JArr [title_a; title_b])])
    | _ => TimedOut
    end
  else lookups r.

(** Page 1 holds the two movies and page 2 a number in place of a record. *)
Definition malformed (n : nat) (r : request) : reply :=
  if is_discover r then
    match page_of r with
    | Some (JNum 1) => answer (obj [("results", JArr [title_a; title_b])])
    | _ => answer (obj [("results", JArr [JNum 5])])
    end
  else lookups r.

(** Every page holds one record without identifier. *)
Definition endless (n : nat) (r : request) : reply :=
  answer (obj [("results", JArr [obj [("title", JStr "Untitled")]])]).

Definition accepted_a : json :=
  obj [("id", JNum 10); ("title", JStr "Title A"); ("imdb_id", JStr "tt1000000")].

Definition accepted_b : json :=
  obj [("id", JNum 20); ("title", JStr "Title B"); ("imdb_id", JStr "tt2000000")].

(** A later record with the identifier of [accepted_a]. *)
Definition accepted_a' : json :=
  obj [("id", JNum 11); ("title", JStr "Title A again"); ("imdb_id", JStr "tt1000000")].

(** An accepted movie whose poster path is the empty string. *)
Definition no_poster : gmap string json :=
  list_to_map [("imdb_id", JStr "tt1000000"); ("title", JStr "Title A");
               ("poster_path", JStr "")].

End Sample.

(** ** [manifest] *)

Definition manifest : json :=
  jsonify (JObj (list_to_map [
    ("id", JStr "org.malayalam.catalog");
    ("version", JStr "1.0.0");
    ("name", JStr "Malayalam");
    ("description", JStr "Latest Malayalam Movies on OTT");
    ("resources", JArr [JStr "catalog"]);
    ("types", JArr [JStr "movie"]);
    ("catalogs", JArr [JObj (list_to_map [
       ("type", JStr "movie");
       ("id", JStr "malayalam");
       ("name", JStr "Malayalam") ])]);
    ("idPrefixes", JArr [JStr "tt"]) ])).


(** ** The diagnostic output

    The routine and the endpoints again, statement by statement as in the
    source, with their diagnostic lines.  A [world] is the state of the
    program together with the number of writes to the standard output
    attempted so far. *)

Record world : Type := {
  program : state;
  written : nat
}.

Definition IO (A : Type) : Type := world → world * result A.

#[global] Instance IO_ret : MRet IO := λ A a w, (w, Ok a).
#[global] Instance IO_bind : MBind IO := λ A B f m w,
  match m w with
  | (w', Ok a) => f a w'
  | (w', Raise e) => (w', Raise e)
  end.

(** A statement that writes nothing. *)
Definition silent {A} (m : M A) : IO A := λ w,
  ({| program := fst (m (program w)); written := written w |}, snd (m (program w))).

Definition try_except_io {A} (body : IO A) (handler : exn → IO A) : IO A := λ w,
  match body w with
  | (w', Ok a) => (w', Ok a)
  | (w', Raise e) => handler e w'
  end.

Fixpoint for_each_io {A} (loop_body : A → IO flow) (xs : list A) : IO unit :=
  match xs with
  | [] => mret tt
  | x :: rest =>
      c ← loop_body x;
      match c with
      | Next => for_each_io loop_body rest
      | Break => mret tt
      end
  end.

Section Output.

(** The standard output answers the [n]-th write of the process as it
    likes: it takes it, or refuses it with an exception. *)
Variable stdout : nat → option exn.

Definition write : IO unit := λ w,
  ({| program := program w; written := S (written w) |},
   match stdout (written w) with
   | None => Ok tt
   | Some e => Raise e
   end).

(** [print(...)], with or without [flush=True], and [sys.stdout.flush()]:
    one write each.  The text of a line has no bearing on the control
    flow and is not kept. *)
Definition print : IO unit := write.
Definition flush : IO unit := write.

(** A [print] followed by [sys.stdout.flush()], as in the refresh
    routine. *)
Definition report : IO unit := _ ← print; flush.

Variable service : nat → request → reply.
Variable TMDB_API_KEY : string.
Variable today : string.
Variable repr : json → string.

(** The innermost [try] block (lines 88 to 101). *)
Definition get_imdb_id_io (movie movie_id india_providers : json) : IO unit :=
  try_except_io
    (ext_response ← silent (requests_get service (external_ids_url repr movie_id)
                              (key_params TMDB_API_KEY) 10);
     ext_data ← silent (lift (response_json ext_response));
     imdb_id ← silent (lift (Py.get ext_data "imdb_id" JNull));
     usable ← silent (lift (if Py.truthy imdb_id
                            then Py.startswith imdb_id "tt" else Ok false));
     if usable : bool then
       movie' ← silent (lift (Py.setitem movie "imdb_id" imdb_id));
       _ ← silent (append_final movie');
       _ ← silent (lift (Py.keys india_providers));
       report
     else mret tt)
    (λ e, report).

(** The statements inside the middle [try] block (lines 67 to 101). *)
Definition check_ott_try_io (movie movie_id : json) : IO flow :=
  prov_response ← silent (requests_get service (providers_url repr movie_id)
                            (key_params TMDB_API_KEY) 10);
  prov_data ← silent (lift (response_json prov_response));
  missing ← silent (lift (no_india_entry prov_data));
  if missing : bool then
    _ ← report;
    mret Next
  else
    india_providers ← silent (lift (results ← Py.getitem prov_data "results";
                                    Py.getitem results "IN"));
    available ← silent (lift (has_provider india_providers));
    if negb available then
      _ ← report;
      mret Next
    else
      _ ← get_imdb_id_io movie movie_id india_providers;
      mret Next.

(** The middle [try] block with its handler (lines 66 to 106). *)
Definition check_ott_availability_io (movie movie_id : json) : IO flow :=
  try_except_io (check_ott_try_io movie movie_id)
    (λ e, _ ← report; mret Next).

(** The body of [for movie in results] (lines 60 to 106). *)
Definition movie_body_io (movie : json) : IO flow :=
  movie_id ← silent (lift (Py.get movie "id" JNull));
  title ← silent (lift (Py.get movie "title" JNull));
  if negb (Py.truthy movie_id) || negb (Py.truthy title) then mret Next
  else check_ott_availability_io movie movie_id.

(** The statements inside the outer [try] of one page (lines 41 to 106). *)
Definition page_try_io (page : Z) : IO flow :=
  _ ← report;
  response ← silent (requests_get service discover_url
                       (discover_params TMDB_API_KEY today page) 15);
  _ ← report;
  data ← silent (lift (response_json response));
  results ← silent (lift (Py.get data "results" (JArr [])));
  _ ← silent (lift (Py.len results));
  _ ← report;
  if negb (Py.truthy results) then
    _ ← report;
    mret Break
  else
    movies ← silent (lift (Py.iter results));
    _ ← for_each_io movie_body_io movies;
    mret Next.

(** The body of [for page in range(1, 301)]: the line of lines 28 and 29
    is outside the [try]; both handlers report and [break]. *)
Definition page_body_io (page : Z) : IO flow :=
  _ ← report;
  try_except_io (page_try_io page)
    (λ e, match e with
          | Timeout => _ ← report; mret Break
          | _ => _ ← report; mret Break
          end).

(** The routine: the lines 21 and 22 and the lines 127 and 128 are
    outside every [try]. *)
Definition fetch_and_cache_movies_io : IO unit :=
  _ ← report;
  _ ← silent (set_final_movies []);
  _ ← for_each_io page_body_io (seqZ 1 300);
  final ← silent get_final_movies;
  unique_movies ← silent (lift (deduplicate final));
  _ ← silent (set_all_movies_cache unique_movies);
  report.

(** The function [do_refresh] that [refresh] hands to its thread (lines
    185 to 191): the routine and a line inside a [try] whose handler
    prints the traceback.  The thread itself is not modelled. *)
Definition do_refresh_io : IO unit :=
  try_except_io
    (_ ← fetch_and_cache_movies_io;
     print)
    (λ e, print).

(** [to_stremio_meta] with the line of its handler (line 148). *)
Definition to_stremio_meta_io (movie : json) : IO json :=
  try_except_io (silent (lift (to_stremio_meta_try repr movie)))
    (λ e, _ ← print; mret JNull).

(** The comprehension of [catalog]: the elements are projected one after
    the other, and an exception ends it. *)
Fixpoint collect_metas_io (cache : list json) : IO (list json) :=
  match cache with
  | [] => mret []
  | m :: rest =>
      meta ← to_stremio_meta_io m;
      metas ← collect_metas_io rest;
      mret (if Py.truthy meta then meta :: metas else metas)
  end.

(** [catalog] (lines 171 to 180): the line of line 172 is outside the
    [try], the line of line 176 inside. *)
Definition catalog_io (all_movies_cache : list json) : IO json :=
  _ ← print;
  try_except_io
    (metas ← collect_metas_io all_movies_cache;
     _ ← print;
     mret (jsonify (JObj {[ "metas" := JArr metas ]})))
    (λ e,
     _ ← print;
     mret (jsonify (JObj {[ "metas" := JArr [] ]}))).

End Output.

(** No write is refused from the [n]-th on for [k] writes. *)
Definition accepts (stdout : nat → option exn) (n k : nat) : Prop :=
  ∀ i, (i < k)%nat → stdout (n + i)%nat = None.

(** The statement [io] does what [m] does: the same change of the state
    of the program and the same outcome. *)
Definition refines {A} (io : IO A) (m : M A) : Prop :=
  ∀ w, program (fst (io w)) = fst (m (program w)) ∧ snd (io w) = snd (m (program w)).

(** The elements of a cache on which [to_stremio_meta] reports: those
    that are not objects. *)
Definition unreadable (cache : list json) : list json :=
  filter (λ m, is_object m = false) cache.


(** ** Vocabulary of the further properties *)

(** The identifier prefixes a manifest declares. *)
Definition id_prefixes (m : json) : list json :=
  match m with
  | JObj d =>
      match d !! "idPrefixes" with
      | Some (JArr prefixes) => prefixes
      | _ => []
      end
  | _ => []
  end.

(** The fields of a cache element that [to_stremio_meta] reads. *)
Definition meta_fields : list string :=
  ["imdb_id"; "title"; "poster_path"; "overview"; "release_date"; "backdrop_path"].

(** The number of results in the reply to a discover query: the length
    of the list under [results], and 0 when there is no such list. *)
Definition results_size (r : reply) : nat :=
  match r with
  | Answered resp =>
      match body resp with
      | Some (JObj d) =>
          match d !! "results" with
          | Some (JArr movies) => length movies
          | _ => 0%nat
          end
      | _ => 0%nat
      end
  | _ => 0%nat
  end.

(** The lookups among [reqs]: the requests that are not discover queries. *)
Definition lookup_requests (reqs : list request) : list request :=
  filter (λ r, is_discover r = false) reqs.

Section Costs.
Variable TMDB_API_KEY : string.

(** An enrichment lookup as the routine issues it: the credential is its
    only parameter and its time-out is 10. *)
Definition lookup_shape (r : request) : Prop :=
  timeout r = 10 ∧ params r = key_params TMDB_API_KEY ∧ is_discover r = false.

(** Any request as the routine issues it: it carries the credential, and
    its time-out is 15 for a discover query and 10 for a lookup. *)
Definition request_shape (r : request) : Prop :=
  params r !! "api_key" = Some (JStr TMDB_API_KEY)
  ∧ (is_discover r = true ∧ timeout r = 15 ∨ is_discover r = false ∧ timeout r = 10).

(** At most [2 * n] lookups were issued and nothing else, and every movie
    appended was paid by two of them. *)
Definition lookups (n : nat) (s s' : state) : Prop :=
  ∃ reqs added, s' = advance s reqs added
    ∧ (length reqs ≤ 2 * n)%nat
    ∧ (2 * length added ≤ length reqs)%nat
    ∧ Forall lookup_shape reqs.

(** Well-shaped requests were issued, and every movie appended was paid
    by two lookups. *)
Definition paid (s s' : state) : Prop :=
  ∃ reqs added, s' = advance s reqs added
    ∧ Forall request_shape reqs
    ∧ (2 * length added ≤ length (lookup_requests reqs))%nat.
End Costs.

Section Replies.
Variable service : nat → request → reply.

(** Two states from which the routine sees the same replies: the service
    answers the [k]-th request from now alike, and the accumulators are
    equal.  The caches and the requests issued before may differ. *)
Definition agree (s1 s2 : state) : Prop :=
  final_movies s1 = final_movies s2
  ∧ ∀ k r, service (length (issued s1) + k) r = service (length (issued s2) + k) r.

(** A statement that does the same from two such states: the same
    outcome, the same requests, and states that agree again. *)
Definition uniform {A} (m : M A) : Prop :=
  ∀ s1 s2, agree s1 s2 →
    snd (m s1) = snd (m s2)
    ∧ agree (fst (m s1)) (fst (m s2))
    ∧ ∃ reqs, issued (fst (m s1)) = issued s1 ++ reqs
              ∧ issued (fst (m s2)) = issued s2 ++ reqs.
End Replies.

(** The content types a manifest declares. *)
Definition declared_types (m : json) : list json :=
  match m with
  | JObj d =>
      match d !! "types" with
      | Some (JArr types) => types
      | _ => []
      end
  | _ => []
  end.

(** The result list in the reply to a discover query. *)
Definition results_of (r : reply) : option (list json) :=
  match r with
  | Answered resp =>
      match body resp with
      | Some (JObj d) =>
          match d !! "results" with
          | Some (JArr movies) => Some movies
          | _ => None
          end
      | _ => None
      end
  | _ => None
  end.

Section Provenance.
Variable service : nat → request → reply.
Variable TMDB_API_KEY : string.
Variable today : string.
Variable repr : json → string.

(** [m] is a record of [movies] with an identifier put under [imdb_id]:
    a watch-providers reply for the record has an entry for [IN] with one
    of the three categories, and an external-ids reply for it gives the
    identifier. *)
Definition vouched_from (movies : list json) (m : json) : Prop :=
  ∃ d i e n1 n2,
    m = JObj (<["imdb_id" := JStr i]> d)
    ∧ JObj d ∈ movies
    ∧ india_entry (service n1 (providers_request TMDB_API_KEY repr (default JNull (d !! "id"))))
      = Some e
    ∧ any_category e = true
    ∧ usable_imdb_id
        (service n2 (external_ids_request TMDB_API_KEY repr (default JNull (d !! "id"))))
      = Some i.

(** [m] is vouched from the result list of a reply to a discover query. *)
Definition vouched (m : json) : Prop :=
  ∃ n page movies,
    results_of (service n (discover_request TMDB_API_KEY today page)) = Some movies
    ∧ vouched_from movies m.

(** Only movies with the property [P] were appended. *)
Definition sourced (P : json → Prop) (s s' : state) : Prop :=
  ∃ reqs added, s' = advance s reqs added ∧ Forall P added.
End Provenance.

(** A statement with its diagnostic lines appends only movies with the
    property [P], whatever it requests and writes. *)
Definition appends (P : json → Prop) {A} (io : IO A) : Prop :=
  ∀ w, sourced P (program w) (program (fst (io w))).

(** A statement with its diagnostic lines raises only what a refused
    write raises. *)
Definition output_only (stdout : nat → option exn) {A} (io : IO A) : Prop :=
  ∀ w e, snd (io w) = Raise e → ∃ k, stdout k = Some e.

(** ** Further samples *)

Module Cases.

(** The service is down: every request times out. *)
Definition down (n : nat) (r : request) : reply := TimedOut.

(** A state as an earlier run leaves it. *)
Definition warm : state :=
  {| issued := [discover_request Sample.key Sample.today 1];
     final_movies := [Sample.accepted_b];
     all_movies_cache := [Sample.accepted_b] |}.

(** The results of a page with a number between two records. *)
Definition broken_results : gmap string json :=
  {[ "results" := JArr [Sample.title_a; JNum 5; Sample.title_b] ]}.

Definition broken_response : response :=
  {| status_code := 200; body := Some (JObj broken_results) |}.

Definition broken_page (n : nat) (r : request) : reply :=
  if is_discover r then Answered broken_response else Sample.lookups r.

(** The record of movie 10 as the discover query brings it, and the
    entry for [IN] of its watch-providers reply. *)
Definition record_a : gmap string json :=
  list_to_map [("id", JNum 10); ("title", JStr "Title A")].

Definition rent : json := Sample.obj [("rent", JArr [])].

(** Two cache elements that differ in fields the catalog does not read. *)
Definition element_a : gmap string json :=
  list_to_map [("id", JNum 10); ("title", JStr "Title A"); ("imdb_id", JStr "tt1000000")].

Definition element_a' : gmap string json :=
  list_to_map [("id", JNum 99); ("title", JStr "Title A"); ("imdb_id", JStr "tt1000000");
               ("popularity", JNum 3)].

(** A service whose replies depend on the request only: it has the
    movies of [Sample.one_page] for the queries dated [Sample.today] and
    nothing for the queries with another date. *)
Definition dated (n : nat) (r : request) : reply :=
  if is_discover r then
    match params r !! "release_date.lte" with
    | Some (JStr date) =>
        if String.eqb date Sample.today then Sample.one_page n r
        else Sample.answer (Sample.obj [("results", JArr [])])
    | _ => Sample.answer (Sample.obj [("results", JArr [])])
    end
  else Sample.lookups r.

(** The process starts: nothing was requested and nothing written. *)
Definition boot : world := {| program := Sample.idle; written := 0 |}.

(** A standard output that takes every write, and one that is closed. *)
Definition quiet (n : nat) : option exn := None.
Definition closed (n : nat) : option exn := Some OutputError.

(** A standard output that refuses the write number [k] only. *)
Definition refuses (k n : nat) : option exn :=
  if (n =? k)%nat then Some OutputError else None.

(** The number of the write of line 127 in the run over [Sample.one_page]
    from [boot]: the last but one of the run. *)
Definition last_line : nat :=
  Nat.pred (Nat.pred (written (fst (fetch_and_cache_movies_io quiet Sample.one_page
                                      Sample.key Sample.today Sample.repr boot)))).

End Cases.

(** * Properties *)

(** ** Deduplication *)

Lemma accepted_dedupable m : accepted m → dedupable m.
Proof.
  intros (d & i & t & -> & Hi & _). exists d. split; [done|].
  intros v Hv _. by simplify_eq.
Qed.

Lemma accepted_identifier m :
  accepted m → ∃ i, external_id m = Some (JStr i) ∧ identifier m = Some (Py.HStr i).
Proof.
  intros (d & i & t & -> & Hi & Hp & Hne & _). exists i. split; [done|].
  unfold identifier. simpl. rewrite Hi. simpl. unfold key_of. simpl.
  destruct (String.eqb_spec i ""); [done|done].
Qed.

Lemma dedup_loop_spec movies seen unique_movies :
  Forall dedupable movies →
  dedup_loop movies seen unique_movies
  = Ok (unique_movies ++ first_occurrences movies seen).
Proof.
  intros H. revert seen unique_movies.
  induction H as [|m rest (d & -> & Hd) _ IH]; intros seen acc; simpl.
  { by rewrite app_nil_r. }
  unfold mbind, result_bind, identifier, key_of. simpl.
  destruct (d !! "imdb_id") as [v|] eqn:Ev; simpl; [|apply IH].
  destruct (Py.truthy v) eqn:Et; [|apply IH].
  specialize (Hd v eq_refl Et).
  destruct (Py.hash v) as [h|]; [|done]. simpl.
  destruct (decide (h ∈ seen)) as [Hin|Hin].
  - rewrite bool_decide_eq_false_2 by (by intros ?). apply IH.
  - rewrite bool_decide_eq_true_2 by done. rewrite IH. by rewrite <- app_assoc.
Qed.

Lemma first_occurrences_sublist movies seen :
  sublist (first_occurrences movies seen) movies.
Proof.
  revert seen. induction movies as [|m rest IH]; intros seen; simpl; [done|].
  destruct (identifier m) as [h|]; [|by apply sublist_cons].
  destruct (decide _); [by apply sublist_cons | by apply sublist_skip].
Qed.

Lemma first_occurrences_fresh movies seen :
  Forall (λ u, ∃ h, identifier u = Some h ∧ h ∉ seen) (first_occurrences movies seen).
Proof.
  revert seen. induction movies as [|m rest IH]; intros seen; simpl; [done|].
  destruct (identifier m) as [h|] eqn:E; [|apply IH].
  destruct (decide _) as [|Hn]; [apply IH|].
  constructor; [by eauto|].
  eapply Forall_impl; [apply IH|]. simpl. intros u (k & ? & Hk).
  exists k. split; [done|]. set_solver.
Qed.

Lemma first_occurrences_NoDup movies seen :
  NoDup (identifier <$> first_occurrences movies seen).
Proof.
  revert seen. induction movies as [|m rest IH]; intros seen; simpl; [constructor|].
  destruct (identifier m) as [h|] eqn:E; [|apply IH].
  destruct (decide _) as [|Hn]; [apply IH|].
  rewrite fmap_cons. constructor; [|apply IH].
  rewrite E. intros Hin. apply list_elem_of_fmap in Hin as (u & Hu & Hin).
  pose proof (first_occurrences_fresh rest ({[h]} ∪ seen)) as Hf.
  rewrite Forall_forall in Hf. destruct (Hf u Hin) as (k & Hk & Hnk).
  rewrite Hk in Hu. simplify_eq. set_solver.
Qed.

Lemma first_occurrences_find movies seen h :
  h ∉ seen →
  find (has_identifier h) (first_occurrences movies seen)
  = find (has_identifier h) movies.
Proof.
  revert seen. induction movies as [|m rest IH]; intros seen Hh; simpl; [done|].
  unfold has_identifier at 2.
  destruct (identifier m) as [k|] eqn:E.
  - destruct (decide (k ∈ seen)) as [Hk|Hk].
    + rewrite bool_decide_eq_false_2; [by apply IH|]. intros ?. by simplify_eq.
    + simpl. unfold has_identifier at 1. rewrite E.
      destruct (decide (k = h)) as [->|Hne].
      * by rewrite !bool_decide_eq_true_2.
      * rewrite !bool_decide_eq_false_2 by congruence.
        apply IH. intros [Hx|Hx]%elem_of_union; [|done].
        apply elem_of_singleton in Hx. congruence.
  - rewrite bool_decide_eq_false_2 by done. by apply IH.
Qed.

Lemma find_elem_of {A} (f : A → bool) (l : list A) x :
  x ∈ l → f x = true → ∃ y, find f l = Some y ∧ y ∈ l ∧ f y = true.
Proof.
  intros Hx Hf. destruct (find f l) as [y|] eqn:E.
  - apply find_some in E as [Hy ?]. apply list_elem_of_In in Hy. eauto.
  - apply list_elem_of_In in Hx. by rewrite (find_none _ _ E x Hx) in Hf.
Qed.

Lemma identifier_external_id (l : list json) :
  identifier <$> l = (λ o, o ≫= key_of) <$> (external_id <$> l).
Proof. by rewrite <- list_fmap_compose. Qed.

(** C2. For every list of movies the step can look at, deduplication
    returns a list that keeps the order of the input, holds no identifier
    twice, holds only entries with an identifier, and holds for every
    identifier the first entry of the input that has it. *)
Theorem deduplicate_first_occurrences movies :
  Forall dedupable movies →
  ∃ unique_movies,
    deduplicate movies = Ok unique_movies
    ∧ unique_movies `sublist_of` movies
    ∧ NoDup (identifier <$> unique_movies)
    ∧ Forall (λ u, is_Some (identifier u)) unique_movies
    ∧ ∀ h, find (has_identifier h) unique_movies = find (has_identifier h) movies.
Proof.
  intros H. exists (first_occurrences movies ∅). split_and!.
  - unfold deduplicate. by rewrite dedup_loop_spec.
  - apply first_occurrences_sublist.
  - apply first_occurrences_NoDup.
  - eapply Forall_impl; [apply first_occurrences_fresh|].
    simpl. intros u (h & -> & _). by eexists.
  - intros h. by apply first_occurrences_find.
Qed.

(** ** The refresh routine *)

Section Properties.
Variable service : nat → request → reply.
Variable TMDB_API_KEY : string.
Variable today : string.
Variable repr : json → string.

#[local] Abbreviation get_imdb_id := (get_imdb_id service TMDB_API_KEY repr).
#[local] Abbreviation check_ott_try := (check_ott_try service TMDB_API_KEY repr).
#[local] Abbreviation check_ott_availability := (check_ott_availability service TMDB_API_KEY repr).
#[local] Abbreviation movie_body := (movie_body service TMDB_API_KEY repr).
#[local] Abbreviation page_try := (page_try service TMDB_API_KEY today repr).
#[local] Abbreviation page_body := (page_body service TMDB_API_KEY today repr).
#[local] Abbreviation fetch_and_cache_movies := (fetch_and_cache_movies service TMDB_API_KEY today repr).
#[local] Abbreviation providers_request := (providers_request TMDB_API_KEY repr).
#[local] Abbreviation external_ids_request := (external_ids_request TMDB_API_KEY repr).
#[local] Abbreviation discover_request := (discover_request TMDB_API_KEY today).
#[local] Abbreviation paging := (paging TMDB_API_KEY today).
#[local] Abbreviation page_event_at := (page_event_at service TMDB_API_KEY today).
#[local] Abbreviation pages_through := (pages_through service TMDB_API_KEY today repr).

Ltac run :=
  unfold try_except, requests_get, mbind, M_bind, result_bind, lift, mret,
    M_ret, result_ret, append_final, response_json; simpl.

Lemma advance_nil s : advance s [] [] = s.
Proof. destruct s. unfold advance. simpl. by rewrite !app_nil_r. Qed.

Lemma advance_advance s r1 a1 r2 a2 :
  advance (advance s r1 a1) r2 a2 = advance s (r1 ++ r2) (a1 ++ a2).
Proof. unfold advance. simpl. by rewrite !app_assoc. Qed.

Lemma prefix_tt_nonempty i : String.prefix "tt" i = true → i ≠ "".
Proof. by destruct i. Qed.

(** The innermost block never raises; it appends the candidate exactly
    when the lookup yields a usable identifier. *)
Lemma get_imdb_id_spec movie movie_id india_providers s :
  get_imdb_id movie movie_id india_providers s
  = (advance s [external_ids_request movie_id]
       match usable_imdb_id (service (length (issued s)) (external_ids_request movie_id)), movie with
       | Some i, JObj d => [JObj (<["imdb_id" := JStr i]> d)]
       | _, _ => []
       end, Ok tt).
Proof.
  unfold get_imdb_id, advance, usable_imdb_id,
    external_ids_request. run.
  destruct (service _ _) as [| | [st [[]|]]]; simpl; try by rewrite app_nil_r.
  destruct (d !! "imdb_id") as [[]|]; simpl; try by rewrite ?app_nil_r.
  - destruct b; simpl; by rewrite app_nil_r.
  - destruct (negb (z =? 0)); simpl; by rewrite app_nil_r.
  - destruct (negb (String.eqb s0 "")) eqn:E; simpl.
    + destruct (String.prefix "tt" s0); simpl; [|by rewrite app_nil_r].
      destruct movie; simpl; try by rewrite app_nil_r.
      by destruct india_providers.
    + apply negb_false_iff, String.eqb_eq in E. subst. simpl. by rewrite app_nil_r.
  - destruct (negb (bool_decide (l = []))); simpl; by rewrite app_nil_r.
  - destruct (negb (bool_decide (d0 = ∅))); simpl; by rewrite app_nil_r.
Qed.


Lemma has_provider_spec e :
  match has_provider e with
  | Ok b => any_category e = b
  | Raise _ => any_category e = false
  end.
Proof.
  unfold has_provider, any_category, offers. run.
  destruct e; simpl; try done.
  - destruct (Py.substring_of "flatrate" s); simpl; [done|].
    destruct (Py.substring_of "buy" s); simpl; done.
  - destruct (existsb _ l); simpl; [done|].
    destruct (existsb _ l); simpl; done.
  - destruct (bool_decide (is_Some (d !! "flatrate"))); simpl; [done|].
    destruct (bool_decide (is_Some (d !! "buy"))); simpl; done.
Qed.

(** The statements of the middle block: they reach the identifier lookup
    exactly when the reply has a regional entry with one of the three
    categories; otherwise they end in [continue] or raise, having issued
    the one request and appended nothing. *)
Lemma check_ott_try_spec movie movie_id s :
  let r := service (length (issued s)) (providers_request movie_id) in
  let s1 := advance s [providers_request movie_id] [] in
  match india_entry r with
  | Some e =>
      if any_category e
      then check_ott_try movie movie_id s = (fst (get_imdb_id movie movie_id e s1), Ok Next)
      else ∃ x, check_ott_try movie movie_id s = (s1, x) ∧ (x = Ok Next ∨ is_raise x = true)
  | None => ∃ x, check_ott_try movie movie_id s = (s1, x) ∧ (x = Ok Next ∨ is_raise x = true)
  end.
Proof.
  intros r s1. subst r s1.
  unfold check_ott_try, india_entry, providers_request, no_india_entry, advance. run.
  rewrite app_nil_r.
  destruct (service _ _) as [| | [st [pd|]]]; simpl; try by eauto.
  destruct pd; simpl; try by eauto.
  - destruct (Py.substring_of "results" s0); simpl; eauto.
  - destruct (existsb _ l); simpl; eauto.
  - destruct (d !! "results") as [res|] eqn:E; simpl; [|by eauto].
    destruct res; simpl; try by eauto.
    + destruct (Py.substring_of "IN" s0); simpl; eauto.
    + destruct (existsb _ l); simpl; eauto.
    + destruct (d0 !! "IN") as [e|] eqn:E2; simpl; [|by eauto].
      pose proof (has_provider_spec e) as Hp.
      destruct (has_provider e) as [b|x]; rewrite Hp.
      * destruct b; simpl; [|by eauto].
        by rewrite get_imdb_id_spec.
      * eauto.
Qed.


Lemma enrichment_refl s : enrichment s s.
Proof. exists [], []. by rewrite advance_nil. Qed.

Lemma enrichment_trans s1 s2 s3 :
  enrichment s1 s2 → enrichment s2 s3 → enrichment s1 s3.
Proof.
  intros (r1 & a1 & -> & ? & ?) (r2 & a2 & -> & ? & ?).
  exists (r1 ++ r2), (a1 ++ a2). rewrite advance_advance.
  by rewrite !Forall_app.
Qed.

Lemma providers_not_discover movie_id : is_discover (providers_request movie_id) = false.
Proof. apply String.eqb_neq. unfold providers_request, providers_url. simpl. discriminate. Qed.

Lemma external_ids_not_discover movie_id : is_discover (external_ids_request movie_id) = false.
Proof. apply String.eqb_neq. unfold external_ids_request, external_ids_url. simpl. discriminate. Qed.

Lemma truthy_default_Some (d : gmap string json) k :
  Py.truthy (default JNull (d !! k)) = true →
  ∃ v, d !! k = Some v ∧ Py.truthy v = true.
Proof. destruct (d !! k); [eauto | done]. Qed.

(** A candidate that is an object never raises and never ends the loop;
    what it appends is accepted. *)
Lemma movie_body_object d s :
  ∃ s', movie_body (JObj d) s = (s', Ok Next) ∧ enrichment s s'.
Proof.
  unfold movie_body. run.
  destruct (negb (Py.truthy (default JNull (d !! "id"))) ||
            negb (Py.truthy (default JNull (d !! "title")))) eqn:E.
  { eexists; split; [done | apply enrichment_refl]. }
  apply orb_false_iff in E as [_ Ht]. apply negb_false_iff in Ht.
  apply truthy_default_Some in Ht as (t & Ht & Htt).
  set (movie_id := default JNull (d !! "id")).
  unfold check_ott_availability, try_except.
  pose proof (check_ott_try_spec (JObj d) movie_id s) as H. simpl in H.
  assert (Hq : enrichment s (advance s [providers_request movie_id] [])).
  { eexists _, _. split; [done|]. split; [|done].
    constructor; [apply providers_not_discover | done]. }
  destruct (india_entry _) as [e|].
  - destruct (any_category e).
    + rewrite H, get_imdb_id_spec. simpl. eexists; split; [done|].
      rewrite advance_advance. eexists _, _. split; [done|]. split.
      * simpl. by repeat constructor.
      * destruct (usable_imdb_id _) as [i|] eqn:Ei; simpl; [|done].
        repeat constructor. exists (<["imdb_id" := JStr i]> d), i, t.
        unfold usable_imdb_id in Ei.
        destruct (service _ _) as [| | [st [[]|]]]; simpl in Ei; try done.
        destruct (d0 !! "imdb_id") as [[]|]; try done.
        destruct (String.prefix "tt" s0) eqn:Ep; [|done]. simplify_eq.
        split_and!; [done | by rewrite lookup_insert_eq | done
                    | by apply prefix_tt_nonempty | by rewrite lookup_insert_ne | done].
    + destruct H as (x & -> & [-> | Hx]); [by eauto|].
      destruct x; [done|]. by eauto.
  - destruct H as (x & -> & [-> | Hx]); [by eauto|].
    destruct x; [done|]. by eauto.
Qed.

(** Anything else in the result list raises at [movie.get]. *)
Lemma movie_body_not_object m s :
  is_object m = false → movie_body m s = (s, Raise AttributeError).
Proof. by destruct m. Qed.


(** The loop over the candidates of a page: it goes through all of them
    when they all are objects and raises at the first that is not. *)
Lemma for_each_movies movies s :
  ∃ s', enrichment s s'
    ∧ for_each movie_body movies s
      = (s', if forallb is_object movies then Ok tt else Raise AttributeError).
Proof.
  revert s. induction movies as [|m rest IH]; intros s; simpl.
  { exists s. split; [apply enrichment_refl | done]. }
  unfold mbind, M_bind. destruct (is_object m) eqn:Em; simpl.
  - destruct m; try done.
    destruct (movie_body_object d s) as (s1 & -> & H1).
    destruct (IH s1) as (s2 & H2 & ->).
    exists s2. split; [by eapply enrichment_trans | done].
  - rewrite movie_body_not_object by done.
    exists s. split; [apply enrichment_refl | done].
Qed.

Lemma discover_queries_app r1 r2 :
  discover_queries (r1 ++ r2) = discover_queries r1 ++ discover_queries r2.
Proof. apply filter_app. Qed.

Lemma discover_queries_enrichment reqs :
  Forall (λ r, is_discover r = false) reqs → discover_queries reqs = [].
Proof.
  unfold discover_queries. induction 1 as [|r reqs Hr _ IH]; [done|].
  rewrite filter_cons_False; [done | by rewrite Hr].
Qed.

Lemma paging_refl s : paging s s [].
Proof. exists [], []. by rewrite advance_nil. Qed.

Lemma paging_trans s1 s2 s3 p1 p2 :
  paging s1 s2 p1 → paging s2 s3 p2 → paging s1 s3 (p1 ++ p2).
Proof.
  intros (r1 & a1 & -> & H1 & ?) (r2 & a2 & -> & H2 & ?).
  exists (r1 ++ r2), (a1 ++ a2). rewrite advance_advance.
  by rewrite discover_queries_app, H1, H2, fmap_app, Forall_app.
Qed.

Lemma paging_page s s' page :
  enrichment (advance s [discover_request page] []) s' → paging s s' [page].
Proof.
  intros (reqs & added & -> & Hr & Ha). rewrite advance_advance.
  eexists _, _. split; [done|]. split; [|done].
  rewrite discover_queries_app, (discover_queries_enrichment reqs) by done.
  reflexivity.
Qed.

Ltac page_stays s1 :=
  exists s1; eexists; split; [reflexivity|]; split; [apply enrichment_refl|];
  first [done | split; done].

(** The statements of one page.  They return through the emptiness test
    ([break]) on an empty result list and reach their end on a non-empty
    list of objects.  They raise [requests.Timeout] when the query times
    out and another exception when it fails.  On a payload that cannot be
    processed they do not reach their end: they raise an exception other
    than [requests.Timeout], or return through the emptiness test when
    [results] is an empty string or an empty object. *)
Lemma page_try_spec page s :
  ∃ s' r, page_try page s = (s', r)
    ∧ enrichment (advance s [discover_request page] []) s'
    ∧ match page_event_at page s with
      | PageTimeout => r = Raise Timeout
      | PageFailed => r = Raise RequestException
      | PageMalformed => r ≠ Ok Next ∧ r ≠ Raise Timeout
      | PageEmpty => r = Ok Break
      | PageResults _ => r = Ok Next
      end.
Proof.
  unfold page_try, page_event_at, page_event_of, discover_request.
  set (s1 := advance s _ []).
  unfold requests_get, mbind at 1, M_bind at 1.
  replace ({| issued := _; final_movies := _; all_movies_cache := _ |}) with s1
    by (unfold s1, advance; simpl; by rewrite app_nil_r).
  destruct (service _ _) as [| | [st [data|]]]; simpl;
    try by page_stays s1.
  run.
  destruct data; simpl;
    try by page_stays s1.
  destruct (default (JArr []) (d !! "results")) as [| | | res | movies | d'] eqn:E; simpl;
    try by page_stays s1.
  - destruct (String.eqb res "") eqn:Er; simpl;
      [by page_stays s1|].
    destruct res as [|c res]; [done|]. simpl.
    by page_stays s1.
  - destruct movies as [|m rest].
    { by page_stays s1. }
    rewrite bool_decide_eq_false_2 by done. simpl negb. cbv iota.
    destruct (for_each_movies (m :: rest) s1) as (s2 & H2 & Hrun).
    simpl in Hrun. simpl.
    unfold mbind, M_bind in Hrun |- *.
    rewrite Hrun. exists s2.
    destruct (is_object m && forallb is_object rest);
      eexists; split_and!; done.
  - destruct (bool_decide (d' = ∅)) eqn:Ed; simpl;
      [by page_stays s1|].
    apply bool_decide_eq_false in Ed.
    destruct (map_to_list d') as [|[k v] kvs] eqn:Ekv.
    { by apply map_to_list_empty_iff in Ekv. }
    simpl. by page_stays s1.
Qed.

(** One page with its handlers: it ends in [break] unless the query
    brings a non-empty list of objects; it never raises. *)
Lemma page_body_spec page s :
  ∃ s', enrichment (advance s [discover_request page] []) s'
    ∧ page_body page s
      = (s', Ok match page_event_at page s with
                | PageResults _ => Next
                | _ => Break
                end).
Proof.
  destruct (page_try_spec page s) as (s' & r & E & He & Hr).
  exists s'. split; [done|]. unfold page_body, try_except. rewrite E.
  destruct (page_event_at page s); try by subst r.
  destruct Hr as [Hr _]. destruct r as [[]|e]; [done | done | by destruct e].
Qed.

(** The ways of a page in terms of the reply to its query: the handler
    of [requests.Timeout] runs exactly when the query times out; a query
    that fails otherwise raises; an empty result list leaves through the
    emptiness test; the statements reach their end exactly on a non-empty
    list of objects; and they raise only when the request fails or the
    payload cannot be processed. *)
Lemma page_try_paths page s :
  (snd (page_try page s) = Raise Timeout ↔ page_event_at page s = PageTimeout)
  ∧ (page_event_at page s = PageFailed → snd (page_try page s) = Raise RequestException)
  ∧ (page_event_at page s = PageEmpty → snd (page_try page s) = Ok Break)
  ∧ (snd (page_try page s) = Ok Next ↔ ∃ movies, page_event_at page s = PageResults movies)
  ∧ (is_raise (snd (page_try page s)) = true →
     request_fails (page_event_at page s) ∨ page_event_at page s = PageMalformed).
Proof.
  destruct (page_try_spec page s) as (s' & r & -> & _ & Hr). simpl.
  unfold request_fails.
  destruct (page_event_at page s).
  - subst r. split_and!; try split; try done; try by intros [? ?]. intros _. by left; left.
  - subst r. split_and!; try split; try done; try by intros [? ?]. intros _. by left; right.
  - destruct Hr as [Hr Hr']. split_and!; try split; try done; try by intros [? ?].
    intros _. by right.
  - subst r. split_and!; try split; try done; try by intros [? ?].
  - subst r. split_and!; try split; try done. intros _. by eexists.
Qed.

Lemma for_each_pages_step page rest s :
  for_each page_body (page :: rest) s
  = match page_event_at page s with
    | PageResults _ => for_each page_body rest (fst (page_body page s))
    | _ => (fst (page_body page s), Ok tt)
    end.
Proof.
  simpl. unfold mbind, M_bind.
  destruct (page_body_spec page s) as (s' & _ & ->). simpl.
  by destruct (page_event_at _ _).
Qed.

(** The loop over the pages ends normally after the queries for a prefix
    of the pages, which is all of them when no page stops it. *)
Lemma for_each_pages pages s :
  ∃ s' queried,
    for_each page_body pages s = (s', Ok tt)
    ∧ queried `prefix_of` pages
    ∧ paging s s' queried
    ∧ ((∀ n p, ∃ movies,
          page_event_of (service n (discover_request p)) = PageResults movies)
       → queried = pages).
Proof.
  revert s. induction pages as [|p rest IH]; intros s.
  { exists s, []. split_and!; [done | done | apply paging_refl | done]. }
  rewrite for_each_pages_step.
  destruct (page_body_spec p s) as (s1 & H1 & E1). rewrite E1. simpl.
  apply paging_page in H1.
  destruct (page_event_at _ _) as [| | | |movies] eqn:Ev.
  5:{ destruct (IH s1) as (s2 & q & -> & Hq & Hp & Hall).
      exists s2, (p :: q). split_and!; [done | by apply prefix_cons | |].
      - by apply (paging_trans s s1 s2 [p] q).
      - intros Hyp. by rewrite Hall. }
  all: exists s1, [p]; split_and!;
    [done | by apply prefix_cons, prefix_nil | done |].
  all: intros Hyp; destruct (Hyp (length (issued s)) p) as (ms & Hms);
    unfold page_event_at in Ev; congruence.
Qed.

Lemma pages_through_for_each pre rest s sp :
  pages_through pre s = Some sp →
  paging s sp pre
  ∧ for_each page_body (pre ++ rest) s = for_each page_body rest sp.
Proof.
  revert s. induction pre as [|p pre IH]; intros s; simpl.
  { intros [= ->]. split; [apply paging_refl | done]. }
  destruct (page_body_spec p s) as (s1 & H1 & E1). rewrite E1.
  apply paging_page in H1. unfold mbind, M_bind. rewrite E1.
  destruct (page_event_at _ _); try done.
  intros Hthrough. destruct (IH _ Hthrough) as [Hp ->].
  split; [|done]. by apply (paging_trans s s1 sp [p] pre).
Qed.

Lemma paging_start s s' pages :
  paging (start s) s' pages →
  Forall accepted (final_movies s')
  ∧ all_movies_cache s' = all_movies_cache s
  ∧ ∃ reqs, issued s' = issued s ++ reqs
      ∧ discover_queries reqs = discover_request <$> pages.
Proof. intros (reqs & added & -> & Hr & Ha). simpl. eauto. Qed.

Lemma fetch_and_cache_movies_unfold s :
  fetch_and_cache_movies s
  = match for_each page_body (seqZ 1 300) (start s) with
    | (s1, Ok _) =>
        match deduplicate (final_movies s1) with
        | Ok unique_movies =>
            ({| issued := issued s1;
                final_movies := final_movies s1;
                all_movies_cache := unique_movies |}, Ok tt)
        | Raise e => (s1, Raise e)
        end
    | (s1, Raise e) => (s1, Raise e)
    end.
Proof.
  unfold fetch_and_cache_movies.
  cbv [mbind M_bind set_final_movies get_final_movies set_all_movies_cache lift].
  fold (start s).
  destruct (for_each _ _ _) as [s1 [[]|e]]; [|done].
  by destruct (deduplicate _).
Qed.

(** The whole routine, in terms of the loop: it installs the first
    occurrences of what the loop accumulated. *)
Lemma fetch_and_cache_movies_spec s :
  ∃ s1 queried,
    for_each page_body (seqZ 1 300) (start s) = (s1, Ok tt)
    ∧ queried `prefix_of` seqZ 1 300
    ∧ paging (start s) s1 queried
    ∧ ((∀ n p, ∃ movies,
          page_event_of (service n (discover_request p)) = PageResults movies)
       → queried = seqZ 1 300)
    ∧ deduplicate (final_movies s1) = Ok (first_occurrences (final_movies s1) ∅)
    ∧ fetch_and_cache_movies s
      = ({| issued := issued s1;
            final_movies := final_movies s1;
            all_movies_cache := first_occurrences (final_movies s1) ∅ |}, Ok tt).
Proof.
  destruct (for_each_pages (seqZ 1 300) (start s)) as (s1 & q & E & Hq & Hp & Hall).
  exists s1, q. split_and!; try done.
  - unfold deduplicate. rewrite dedup_loop_spec; [done|].
    eapply Forall_impl; [apply (paging_start _ _ _ Hp) | apply accepted_dedupable].
  - rewrite fetch_and_cache_movies_unfold, E.
    unfold deduplicate. rewrite dedup_loop_spec; [done|].
    eapply Forall_impl; [apply (paging_start _ _ _ Hp) | apply accepted_dedupable].
Qed.

Lemma prefix_of_seqZ (q : list Z) m n :
  0 ≤ n → q `prefix_of` seqZ m n → ∃ k, 0 ≤ k ≤ n ∧ q = seqZ m k.
Proof.
  intros Hn [rest Hq].
  assert (Hlen : (length q ≤ Z.to_nat n)%nat).
  { rewrite <- (length_seqZ m n), Hq, length_app. lia. }
  exists (Z.of_nat (length q)). split; [lia|].
  replace n with (Z.of_nat (length q) + (n - Z.of_nat (length q))) in Hq by lia.
  rewrite seqZ_app in Hq by lia.
  apply app_inj_1 in Hq as [Hq _]; [done|]. rewrite length_seqZ. lia.
Qed.

(** C1. Every refresh run ends by installing a cache in which every
    element is an object with a string identifier starting with [tt] and
    not empty and with a title that is present and not empty, and in which
    no identifier occurs twice. *)
Theorem refresh_installs_accepted_unique s :
  ∃ s', fetch_and_cache_movies s = (s', Ok tt)
    ∧ Forall accepted (all_movies_cache s')
    ∧ NoDup (external_id <$> all_movies_cache s').
Proof.
  destruct (fetch_and_cache_movies_spec s) as (s1 & q & _ & _ & Hp & _ & _ & ->).
  eexists. split; [done|]. simpl.
  apply paging_start in Hp as [Hacc _]. split.
  - rewrite Forall_forall in Hacc |- *. intros u Hu. apply Hacc.
    eapply elem_of_sublist; [done | apply first_occurrences_sublist].
  - eapply NoDup_fmap_1. rewrite <- identifier_external_id.
    apply first_occurrences_NoDup.
Qed.

(** The routine returns normally whatever the service does. *)
Lemma refresh_returns s : snd (fetch_and_cache_movies s) = Ok tt.
Proof. by destruct (fetch_and_cache_movies_spec s) as (? & ? & _ & _ & _ & _ & _ & ->). Qed.

(** The lookups for a candidate end in [continue], whatever goes wrong in
    them. *)
Lemma check_ott_availability_next movie movie_id s :
  snd (check_ott_availability movie movie_id s) = Ok Next.
Proof.
  unfold check_ott_availability, try_except.
  pose proof (check_ott_try_spec movie movie_id s) as Hs. simpl in Hs.
  destruct (india_entry _) as [e|]; [destruct (any_category e)|].
  - by rewrite Hs.
  - destruct Hs as (x & -> & [-> | Hx]); [done | by destruct x].
  - destruct Hs as (x & -> & [-> | Hx]); [done | by destruct x].
Qed.

(** A page ends in going on or in [break], and in [break] when its
    statements raise. *)
Lemma page_body_handles page s :
  ∃ c, snd (page_body page s) = Ok c
    ∧ (is_raise (snd (page_try page s)) = true → c = Break).
Proof.
  unfold page_body, try_except.
  destruct (page_try page s) as [s' [c|e]]; simpl.
  - by exists c.
  - exists Break. by destruct e.
Qed.

(** C8. Every refresh run returns, and the discover queries it issued
    are those for the pages [1..k], in this order and each once, for some
    [k] up to 300; [k] is 300 when every query brings a non-empty list of
    objects, that is when no page is empty and no page fails. *)
Theorem discover_queries_bounded s :
  ∃ s' k reqs,
    fetch_and_cache_movies s = (s', Ok tt)
    ∧ 0 ≤ k ≤ 300
    ∧ issued s' = issued s ++ reqs
    ∧ discover_queries reqs = discover_request <$> seqZ 1 k
    ∧ ((∀ n p, ∃ movies,
          page_event_of (service n (discover_request p)) = PageResults movies)
       → k = 300).
Proof.
  destruct (fetch_and_cache_movies_spec s) as (s1 & q & _ & Hq & Hp & Hall & _ & ->).
  apply prefix_of_seqZ in Hq as (k & Hk & ->); [|lia].
  apply paging_start in Hp as (_ & _ & reqs & Hi & Hd).
  eexists _, k, reqs. split_and!; try done; try lia.
  intros Hyp. specialize (Hall Hyp).
  apply (f_equal length) in Hall. rewrite !length_seqZ in Hall. lia.
Qed.

(** C10. A candidate whose identifier or title is missing or false as a
    Python condition is skipped with the state unchanged: no request is
    issued for it and nothing is appended. *)
Theorem falsy_candidate_skipped d s :
  Py.truthy (default JNull (d !! "id")) = false
  ∨ Py.truthy (default JNull (d !! "title")) = false →
  movie_body (JObj d) s = (s, Ok Next).
Proof.
  intros H. unfold movie_body. run.
  destruct H as [-> | ->]; [done|]. by rewrite orb_true_r.
Qed.


Lemma page_body_break page s :
  snd (page_body page s) = Ok Break
  ↔ page_event_at page s = PageEmpty
    ∨ request_fails (page_event_at page s)
    ∨ page_event_at page s = PageMalformed.
Proof.
  destruct (page_body_spec page s) as (s' & _ & ->). simpl. unfold request_fails.
  destruct (page_event_at _ _); split; intros H; try done; try tauto.
  destruct H as [|[[|]|]]; done.
Qed.

Lemma accepted_same_identifier u m :
  accepted u → accepted m → identifier u = identifier m → external_id u = external_id m.
Proof.
  intros (i & Hu & Hiu)%accepted_identifier (j & Hm & Him)%accepted_identifier.
  rewrite Hiu, Him, Hu, Hm. congruence.
Qed.


End Properties.

(** ** The catalog *)

Section CatalogProperties.
Variable repr : json → string.

#[local] Abbreviation image_url := (image_url repr).
#[local] Abbreviation to_stremio_meta_try := (to_stremio_meta_try repr).
#[local] Abbreviation to_stremio_meta := (to_stremio_meta repr).
#[local] Abbreviation catalog := (catalog repr).
#[local] Abbreviation image := (image repr).
#[local] Abbreviation catalog_entry := (catalog_entry repr).
#[local] Abbreviation projection := (projection repr).

Lemma image_url_object d width key :
  image_url (JObj d) width key = Ok (image width (d !! key)).
Proof.
  unfold image_url, image, mbind, result_bind. simpl.
  destruct (d !! key) as [p|]; simpl; [|done]. by destruct (Py.truthy p).
Qed.

(** On an object the statements of [to_stremio_meta] do not raise. *)
Lemma to_stremio_meta_try_object d :
  to_stremio_meta_try (JObj d)
  = Ok (if negb (Py.truthy (default JNull (d !! "imdb_id")))
           || negb (Py.truthy (default JNull (d !! "title")))
        then JNull else JObj (catalog_entry d)).
Proof.
  unfold to_stremio_meta_try.
  rewrite !image_url_object. unfold mbind, result_bind. simpl.
  by destruct (negb _ || negb _).
Qed.

Lemma catalog_entry_truthy d : Py.truthy (JObj (catalog_entry d)) = true.
Proof.
  simpl. apply negb_true_iff, bool_decide_eq_false_2.
  unfold catalog_entry. simpl. apply insert_non_empty.
Qed.

Lemma to_stremio_meta_projection m :
  to_stremio_meta m = default JNull (projection m).
Proof.
  unfold to_stremio_meta. destruct m; try done.
  rewrite to_stremio_meta_try_object. simpl.
  destruct (Py.truthy (default JNull (d !! "imdb_id"))); [|done].
  by destruct (Py.truthy (default JNull (d !! "title"))).
Qed.

Lemma projection_truthy m meta : projection m = Some meta → Py.truthy meta = true.
Proof.
  destruct m; try done. simpl.
  destruct (_ && _); [|done]. intros [= <-]. apply catalog_entry_truthy.
Qed.

Lemma collect_metas_projection cache :
  collect_metas (λ m, Ok (to_stremio_meta m)) cache = Ok (omap projection cache).
Proof.
  induction cache as [|m rest IH]; [done|]. simpl.
  unfold mbind, result_bind. rewrite IH, to_stremio_meta_projection.
  destruct (projection m) as [meta|] eqn:E; simpl; [|done].
  by rewrite (projection_truthy _ _ E).
Qed.

Lemma catalog_spec cache : catalog cache = metas_object (omap projection cache).
Proof.
  unfold catalog, catalog_with. by rewrite collect_metas_projection.
Qed.

Lemma falsy_fields_dec d :
  negb (Py.truthy (default JNull (d !! "imdb_id")))
  || negb (Py.truthy (default JNull (d !! "title"))) = true
  ↔ falsy_field d "imdb_id" ∨ falsy_field d "title".
Proof.
  unfold falsy_field. rewrite orb_true_iff, !negb_true_iff. tauto.
Qed.

Lemma truthy_field_lookup (d : gmap string json) k :
  ¬ falsy_field d k → d !! k = Some (default JNull (d !! k)).
Proof. unfold falsy_field. by destruct (d !! k). Qed.


Lemma accepted_projection m :
  accepted m →
  ∃ d, m = JObj d
    ∧ projection m = Some (JObj (catalog_entry d))
    ∧ catalog_entry d !! "id" = d !! "imdb_id"
    ∧ catalog_entry d !! "name" = d !! "title".
Proof.
  intros (d & i & t & -> & Hi & Hp & Hne & Ht & Htt). exists d. simpl.
  rewrite Hi, Ht. simpl. rewrite Htt.
  destruct (String.eqb_spec i ""); [done|]. simpl.
  split_and!; [done | done | | ].
  - transitivity (Some (default JNull (d !! "imdb_id"))); [reflexivity | by rewrite Hi].
  - transitivity (Some (default JNull (d !! "title"))); [reflexivity | by rewrite Ht].
Qed.


End CatalogProperties.

(** ** The diagnostic output *)

Lemma world_eta w : {| program := program w; written := written w |} = w.
Proof. by destruct w. Qed.

Lemma silent_lift {A} (r : result A) w : silent (lift r) w = (w, r).
Proof. unfold silent, lift. simpl. by rewrite world_eta. Qed.

(** *** A model with the output does what the model without it does *)

Lemma refines_ret {A} (a : A) : refines (mret a) (mret a).
Proof. by intros w. Qed.

Lemma refines_silent {A} (m : M A) : refines (silent m) m.
Proof. by intros w. Qed.

Lemma refines_bind {A B} (io : IO A) (m : M A) (k : A → IO B) (k' : A → M B) :
  refines io m → (∀ a, refines (k a) (k' a)) → refines (io ≫= k) (m ≫= k').
Proof.
  intros H Hk w. specialize (H w). unfold mbind, IO_bind, M_bind.
  destruct (io w) as [w1 r1], (m (program w)) as [s1 r1']. simpl in H.
  destruct H as [<- <-]. destruct r1 as [a|e]; [apply Hk | done].
Qed.

Lemma refines_try_except {A} (io : IO A) (m : M A) (h : exn → IO A) (h' : exn → M A) :
  refines io m → (∀ e, refines (h e) (h' e)) →
  refines (try_except_io io h) (try_except m h').
Proof.
  intros H Hh w. specialize (H w). unfold try_except_io, try_except.
  destruct (io w) as [w1 r1], (m (program w)) as [s1 r1']. simpl in H.
  destruct H as [<- <-]. destruct r1 as [a|e]; [done | apply Hh].
Qed.

Lemma refines_for_each {A} (body : A → IO flow) (body' : A → M flow) xs :
  (∀ x, refines (body x) (body' x)) →
  refines (for_each_io body xs) (for_each body' xs).
Proof.
  intros H. induction xs as [|x rest IH]; simpl; [apply refines_ret|].
  apply refines_bind; [apply H|]. intros [|]; [apply IH | apply refines_ret].
Qed.

Section Quiet.
Variable stdout : nat → option exn.
Variable service : nat → request → reply.
Variable TMDB_API_KEY : string.
Variable today : string.
Variable repr : json → string.

(** The standard output refuses no write. *)
Hypothesis quiet : ∀ n, stdout n = None.

Lemma refines_write : refines (write stdout) (mret tt).
Proof. intros w. unfold write. simpl. by rewrite quiet. Qed.

Lemma refines_report : refines (report stdout) (mret tt).
Proof.
  intros w. unfold report, print, flush, write, mbind, IO_bind. simpl.
  by rewrite !quiet.
Qed.

Lemma refines_report_then {A} (io : IO A) (m : M A) :
  refines io m → refines (_ ← report stdout; io) m.
Proof.
  intros H w. unfold report, print, flush, write, mbind, IO_bind. simpl.
  rewrite !quiet. exact (H _).
Qed.

Lemma refines_then_report (io : IO unit) (m : M unit) :
  refines io m → refines (_ ← io; report stdout) m.
Proof.
  intros H w. specialize (H w). unfold mbind, IO_bind.
  destruct (io w) as [w1 r1], (m (program w)) as [s1 r1']. simpl in H.
  destruct H as [<- <-]. destruct r1 as [[]|e]; [|done].
  apply (refines_report w1).
Qed.

Lemma refines_then_print (io : IO unit) (m : M unit) :
  refines io m → refines (_ ← io; print stdout) m.
Proof.
  intros H w. specialize (H w). unfold mbind, IO_bind.
  destruct (io w) as [w1 r1], (m (program w)) as [s1 r1']. simpl in H.
  destruct H as [<- <-]. destruct r1 as [[]|e]; [|done].
  apply (refines_write w1).
Qed.

Lemma get_imdb_id_refines movie movie_id india_providers :
  refines (get_imdb_id_io stdout service TMDB_API_KEY repr movie movie_id india_providers)
          (get_imdb_id service TMDB_API_KEY repr movie movie_id india_providers).
Proof.
  unfold get_imdb_id_io, get_imdb_id.
  apply refines_try_except; [|intros e; apply refines_report].
  apply refines_bind; [apply refines_silent | intros ext_response].
  apply refines_bind; [apply refines_silent | intros ext_data].
  apply refines_bind; [apply refines_silent | intros imdb_id].
  apply refines_bind; [apply refines_silent | intros usable].
  destruct usable; [|apply refines_ret].
  apply refines_bind; [apply refines_silent | intros movie'].
  apply refines_bind; [apply refines_silent | intros _].
  apply refines_bind; [apply refines_silent | intros _].
  apply refines_report.
Qed.

Lemma check_ott_availability_refines movie movie_id :
  refines (check_ott_availability_io stdout service TMDB_API_KEY repr movie movie_id)
          (check_ott_availability service TMDB_API_KEY repr movie movie_id).
Proof.
  unfold check_ott_availability_io, check_ott_availability.
  apply refines_try_except;
    [|intros e; apply refines_report_then, refines_ret].
  unfold check_ott_try_io, check_ott_try.
  apply refines_bind; [apply refines_silent | intros prov_response].
  apply refines_bind; [apply refines_silent | intros prov_data].
  apply refines_bind; [apply refines_silent | intros missing].
  destruct missing; [apply refines_report_then, refines_ret|].
  apply refines_bind; [apply refines_silent | intros india_providers].
  apply refines_bind; [apply refines_silent | intros available].
  destruct (negb available); [apply refines_report_then, refines_ret|].
  apply refines_bind; [apply get_imdb_id_refines | intros _; apply refines_ret].
Qed.

Lemma movie_body_refines movie :
  refines (movie_body_io stdout service TMDB_API_KEY repr movie)
          (movie_body service TMDB_API_KEY repr movie).
Proof.
  unfold movie_body_io, movie_body.
  apply refines_bind; [apply refines_silent | intros movie_id].
  apply refines_bind; [apply refines_silent | intros title].
  destruct (_ || _); [apply refines_ret | apply check_ott_availability_refines].
Qed.

Lemma page_body_refines page :
  refines (page_body_io stdout service TMDB_API_KEY today repr page)
          (page_body service TMDB_API_KEY today repr page).
Proof.
  unfold page_body_io, page_body. apply refines_report_then.
  apply refines_try_except;
    [|intros e; destruct e; apply refines_report_then, refines_ret].
  unfold page_try_io, page_try. apply refines_report_then.
  apply refines_bind; [apply refines_silent | intros response].
  apply refines_report_then.
  apply refines_bind; [apply refines_silent | intros data].
  apply refines_bind; [apply refines_silent | intros results].
  apply refines_bind; [apply refines_silent | intros _].
  apply refines_report_then.
  destruct (negb _); [apply refines_report_then, refines_ret|].
  apply refines_bind; [apply refines_silent | intros movies].
  apply refines_bind; [|intros _; apply refines_ret].
  apply refines_for_each, movie_body_refines.
Qed.

Lemma fetch_and_cache_movies_refines :
  refines (fetch_and_cache_movies_io stdout service TMDB_API_KEY today repr)
          (fetch_and_cache_movies service TMDB_API_KEY today repr).
Proof.
  unfold fetch_and_cache_movies_io, fetch_and_cache_movies.
  apply refines_report_then.
  apply refines_bind; [apply refines_silent | intros _].
  apply refines_bind; [apply refines_for_each, page_body_refines | intros _].
  apply refines_bind; [apply refines_silent | intros final].
  apply refines_bind; [apply refines_silent | intros unique_movies].
  apply refines_then_report, refines_silent.
Qed.

Lemma do_refresh_refines :
  refines (do_refresh_io stdout service TMDB_API_KEY today repr)
          (fetch_and_cache_movies service TMDB_API_KEY today repr).
Proof.
  intros w. unfold do_refresh_io, try_except_io.
  pose proof (refines_then_print _ _ fetch_and_cache_movies_refines w) as [H1 H2].
  pose proof (refresh_returns service TMDB_API_KEY today repr (program w)) as Hok.
  rewrite Hok in H2 |- *.
  match goal with
  | |- context [match ?x with _ => _ end] => destruct x as [w1 r1]
  end.
  simpl in *. by subst r1.
Qed.

End Quiet.

(** *** What a refused write does *)

Section Refusals.
Variable stdout : nat → option exn.
Variable service : nat → request → reply.
Variable TMDB_API_KEY : string.
Variable today : string.
Variable repr : json → string.

#[local] Abbreviation fetch_and_cache_movies :=
  (fetch_and_cache_movies service TMDB_API_KEY today repr).
#[local] Abbreviation fetch_and_cache_movies_io :=
  (fetch_and_cache_movies_io stdout service TMDB_API_KEY today repr).
#[local] Abbreviation page_body_io := (page_body_io stdout service TMDB_API_KEY today repr).
#[local] Abbreviation do_refresh_io :=
  (do_refresh_io stdout service TMDB_API_KEY today repr).
#[local] Abbreviation to_stremio_meta_io := (to_stremio_meta_io stdout repr).
#[local] Abbreviation collect_metas_io := (collect_metas_io stdout repr).
#[local] Abbreviation catalog_io := (catalog_io stdout repr).
#[local] Abbreviation projection := (projection repr).

Lemma accepts_cases n k :
  accepts stdout n k
  ∨ ∃ i e, (i < k)%nat ∧ accepts stdout n i ∧ stdout (n + i)%nat = Some e.
Proof.
  induction k as [|k [H | (i & e & Hi & Ha & He)]].
  - left. intros i Hi. lia.
  - destruct (stdout (n + k)%nat) as [e|] eqn:E.
    + right. exists k, e. split_and!; [lia | done | done].
    + left. intros i Hi. destruct (decide (i = k)) as [->|]; [done|]. apply H. lia.
  - right. exists i, e. split_and!; [lia | done | done].
Qed.

Lemma accepts_S n k :
  accepts stdout n (S k) → stdout n = None ∧ accepts stdout (S n) k.
Proof.
  intros H. split.
  - rewrite <- (Nat.add_0_r n). apply H. lia.
  - intros i Hi. replace (S n + i)%nat with (n + S i)%nat by lia. apply H. lia.
Qed.

(** The first line of the routine is outside every [try]: when it is
    refused the routine raises at once. *)
Lemma fetch_first_line_refused w e :
  stdout (written w) = Some e →
  fetch_and_cache_movies_io w
  = ({| program := program w; written := S (written w) |}, Raise e).
Proof.
  intros H. unfold fetch_and_cache_movies_io.
  cbv [report print flush write mbind IO_bind].
  by rewrite H.
Qed.

(** So is the first line of a page. *)
Lemma page_first_line_refused page w e :
  stdout (written w) = Some e →
  page_body_io page w = ({| program := program w; written := S (written w) |}, Raise e).
Proof.
  intros H. unfold page_body_io, report, print, flush, write, mbind, IO_bind.
  by rewrite H.
Qed.

Lemma to_stremio_meta_io_object d w :
  to_stremio_meta_io (JObj d) w = (w, Ok (to_stremio_meta repr (JObj d))).
Proof.
  unfold to_stremio_meta_io, try_except_io, to_stremio_meta.
  rewrite silent_lift. by rewrite to_stremio_meta_try_object.
Qed.

(** On an element that is not an object [to_stremio_meta] reaches its
    handler, whose line is one write. *)
Lemma to_stremio_meta_io_other m w :
  is_object m = false →
  to_stremio_meta_io m w
  = ({| program := program w; written := S (written w) |},
     match stdout (written w) with
     | None => Ok JNull
     | Some e => Raise e
     end).
Proof.
  intros H. unfold to_stremio_meta_io, try_except_io. rewrite silent_lift.
  destruct m; try done; simpl; unfold mbind, IO_bind, print, write; simpl;
    by destruct (stdout _).
Qed.

Lemma unreadable_object d rest : unreadable (JObj d :: rest) = unreadable rest.
Proof. done. Qed.

Lemma unreadable_other m rest :
  is_object m = false → unreadable (m :: rest) = m :: unreadable rest.
Proof. intros H. unfold unreadable. by rewrite filter_cons_True. Qed.

Lemma collect_metas_io_object d rest w :
  collect_metas_io (JObj d :: rest) w
  = match collect_metas_io rest w with
    | (w', Ok metas) =>
        (w', Ok (match projection (JObj d) with
                 | Some meta => meta :: metas
                 | None => metas
                 end))
    | (w', Raise e) => (w', Raise e)
    end.
Proof.
  pose proof (to_stremio_meta_projection repr (JObj d)) as Hp.
  destruct (projection (JObj d)) as [meta|] eqn:E.
  all: simpl in Hp.
  all: change (collect_metas_io (JObj d :: rest))
         with (meta' ← to_stremio_meta_io (JObj d);
               metas ← collect_metas_io rest;
               mret (if Py.truthy meta' then meta' :: metas else metas)).
  all: unfold mbind at 1, IO_bind at 1; rewrite to_stremio_meta_io_object, Hp.
  all: unfold mbind, IO_bind; destruct (collect_metas_io rest w) as [w1 [metas|e]]; [|done].
  all: unfold mret, IO_ret.
  - by rewrite (projection_truthy _ _ _ E).
  - done.
Qed.

Lemma collect_metas_io_other m rest w :
  is_object m = false →
  collect_metas_io (m :: rest) w
  = match stdout (written w) with
    | None => collect_metas_io rest {| program := program w; written := S (written w) |}
    | Some e => ({| program := program w; written := S (written w) |}, Raise e)
    end.
Proof.
  intros H. simpl. unfold mbind at 1, IO_bind at 1. rewrite to_stremio_meta_io_other by done.
  destruct (stdout (written w)); [done|].
  unfold mbind, IO_bind. by destruct (collect_metas_io rest _) as [w1 [metas|e]].
Qed.

(** The comprehension when its writes are accepted: it yields the
    entries of the elements that project, in order. *)
Lemma collect_metas_io_accepted cache w :
  accepts stdout (written w) (length (unreadable cache)) →
  collect_metas_io cache w
  = ({| program := program w;
        written := (written w + length (unreadable cache))%nat |},
     Ok (omap projection cache)).
Proof.
  revert w. induction cache as [|m rest IH]; intros w H.
  { simpl. unfold mret, IO_ret. by rewrite Nat.add_0_r, world_eta. }
  destruct (is_object m) eqn:Em.
  - destruct m; try done. rewrite collect_metas_io_object.
    rewrite unreadable_object in H |- *. by rewrite IH.
  - rewrite collect_metas_io_other by done.
    rewrite unreadable_other in H |- * by done.
    apply accepts_S in H as [-> H]. rewrite IH by done. simpl.
    destruct m; try done; do 2 f_equal; lia.
Qed.

(** The comprehension when one of its writes is refused: it raises what
    the first refused write raises. *)
Lemma collect_metas_io_refused cache w i e :
  (i < length (unreadable cache))%nat →
  accepts stdout (written w) i →
  stdout (written w + i)%nat = Some e →
  collect_metas_io cache w
  = ({| program := program w; written := S (written w + i) |}, Raise e).
Proof.
  revert w i. induction cache as [|m rest IH]; intros w i Hi Ha He.
  { simpl in Hi. lia. }
  destruct (is_object m) eqn:Em.
  - destruct m; try done. rewrite collect_metas_io_object.
    rewrite unreadable_object in Hi. by rewrite (IH w i).
  - rewrite collect_metas_io_other by done.
    rewrite unreadable_other in Hi by done. simpl in Hi.
    destruct i as [|i].
    + rewrite Nat.add_0_r in He |- *. by rewrite He.
    + apply accepts_S in Ha as [-> Ha].
      rewrite (IH _ i); simpl; [| lia | done | by rewrite <- He; f_equal; lia].
      do 2 f_equal. lia.
Qed.

(** The endpoint when the standard output accepts its lines. *)
Lemma catalog_io_accepted cache w :
  accepts stdout (written w) (2 + length (unreadable cache)) →
  catalog_io cache w
  = ({| program := program w;
        written := (written w + (2 + length (unreadable cache)))%nat |},
     Ok (JObj {[ "metas" := JArr (omap projection cache) ]})).
Proof.
  intros H. apply accepts_S in H as [H0 H].
  pose proof (H (length (unreadable cache)) ltac:(lia)) as Hk.
  unfold catalog_io, try_except_io, print.
  unfold mbind at 1, IO_bind at 1, write at 1. rewrite H0.
  unfold mbind at 1, IO_bind at 1.
  rewrite collect_metas_io_accepted by (intros i Hi; apply H; lia).
  unfold mbind, IO_bind, write. cbn [written program Nat.add] in *.
  rewrite Hk. unfold mret, IO_ret, jsonify.
  do 2 f_equal. lia.
Qed.

(** The endpoint when a write inside its [try] is the first refused:
    the handler answers with the empty sequence, if its line is accepted. *)
Lemma catalog_io_handled cache w i e :
  (i ≤ length (unreadable cache))%nat →
  accepts stdout (written w) (S i) →
  stdout (written w + S i)%nat = Some e →
  catalog_io cache w
  = ({| program := program w; written := (written w + S i + 2)%nat |},
     match stdout (written w + S i + 1)%nat with
     | None => Ok (JObj {[ "metas" := JArr [] ]})
     | Some e' => Raise e'
     end).
Proof.
  intros Hi Ha He. apply accepts_S in Ha as [H0 Ha].
  unfold catalog_io, try_except_io, print.
  unfold mbind at 1, IO_bind at 1, write at 1. rewrite H0.
  replace (written w + S i + 1)%nat with (S (S (written w + i))) by lia.
  replace (written w + S i + 2)%nat with (S (S (S (written w + i)))) by lia.
  replace (written w + S i)%nat with (S (written w + i)) in He by lia.
  destruct (decide (i = length (unreadable cache))) as [->|Hne].
  - unfold mbind at 1, IO_bind at 1.
    rewrite collect_metas_io_accepted by done.
    unfold mbind, IO_bind, write. cbn [written program Nat.add]. rewrite He.
    cbn [written program]. by destruct (stdout (S (S _))).
  - unfold mbind at 1, IO_bind at 1.
    rewrite (collect_metas_io_refused cache _ i e); [| lia | done | done].
    unfold mbind, IO_bind, write. cbn [written program Nat.add].
    by destruct (stdout (S (S _))).
Qed.

(** The line that announces the request is outside the [try]. *)
Lemma catalog_io_refused cache w e :
  stdout (written w) = Some e →
  catalog_io cache w = ({| program := program w; written := S (written w) |}, Raise e).
Proof.
  intros H. unfold catalog_io, print, write, mbind, IO_bind. by rewrite H.
Qed.

Lemma accepted_unreadable cache : Forall accepted cache → unreadable cache = [].
Proof.
  induction 1 as [|m rest (d & i & t & -> & _) _ IH]; [done|].
  by rewrite unreadable_object.
Qed.

(** C7, as amended.  The endpoint answers with a metas object as long as
    the standard output accepts its lines: the object [{"metas": [...]}]
    with the entries of the cache elements that project, in order, which
    is what [catalog] computes without the lines, and so [{"metas": []}]
    for the empty cache.  The errors inside its [try] are
    the refused writes there (the line of [to_stremio_meta] for an
    element that is not an object, and the line with the count): the
    handler then answers [{"metas": []}], if its own line is accepted.
    The endpoint fails outward exactly with a refused write of the line
    that announces the request, which is outside the [try], or of the
    line of the handler.  Whatever it answers is a metas object.  For a
    cache of accepted movies the only write inside the [try] is the line
    with the count. *)
Theorem catalog_never_fails cache w :
  let n := written w in
  let k := length (unreadable cache) in
  (accepts stdout n (2 + k) →
   snd (catalog_io cache w) = Ok (JObj {[ "metas" := JArr (omap projection cache) ]})
   ∧ snd (catalog_io cache w) = Ok (catalog repr cache))
  ∧ (cache = [] → accepts stdout n 2 →
     snd (catalog_io cache w) = Ok (JObj {[ "metas" := JArr [] ]}))
  ∧ (∀ i e, (i ≤ k)%nat → accepts stdout n (S i) →
       stdout (n + S i)%nat = Some e → stdout (n + S i + 1)%nat = None →
       snd (catalog_io cache w) = Ok (JObj {[ "metas" := JArr [] ]}))
  ∧ (∀ e, snd (catalog_io cache w) = Raise e
       ↔ stdout n = Some e
         ∨ ∃ i, (i ≤ k)%nat ∧ accepts stdout n (S i)
             ∧ is_Some (stdout (n + S i)%nat)
             ∧ stdout (n + S i + 1)%nat = Some e)
  ∧ (∀ v, snd (catalog_io cache w) = Ok v → ∃ metas, v = JObj {[ "metas" := JArr metas ]})
  ∧ (Forall accepted cache → k = 0%nat).
Proof.
  intros n k.
  assert (Hcases : (∃ e, stdout n = Some e ∧ snd (catalog_io cache w) = Raise e)
    ∨ (accepts stdout n (2 + k)
       ∧ snd (catalog_io cache w) = Ok (JObj {[ "metas" := JArr (omap projection cache) ]}))
    ∨ (∃ i e, (i ≤ k)%nat ∧ accepts stdout n (S i) ∧ stdout (n + S i)%nat = Some e
         ∧ snd (catalog_io cache w)
           = match stdout (n + S i + 1)%nat with
             | None => Ok (JObj {[ "metas" := JArr [] ]})
             | Some e' => Raise e'
             end)).
  { destruct (accepts_cases n (2 + k)) as [H | (i & e & Hi & Ha & He)].
    - right; left. split; [done|]. by rewrite catalog_io_accepted.
    - destruct i as [|i].
      + left. exists e. rewrite Nat.add_0_r in He. split; [done|].
        by rewrite (catalog_io_refused cache w e).
      + right; right. exists i, e. split_and!; [lia | done | done |].
        by rewrite (catalog_io_handled cache w i e) by (done || lia). }
  split_and!.
  - intros H. rewrite catalog_io_accepted by done. by rewrite catalog_spec.
  - intros -> H. by rewrite catalog_io_accepted.
  - intros i e Hi Ha He Hh.
    rewrite (catalog_io_handled cache w i e) by done. simpl. fold n. by rewrite Hh.
  - intros e. split.
    + intros Hr.
      destruct Hcases as [(e' & He' & Hr') | [[_ Hr'] | (i & e' & Hi & Ha & He' & Hr')]].
      * left. congruence.
      * congruence.
      * right. exists i. split_and!; [done | done | by eexists |].
        rewrite Hr in Hr'. by destruct (stdout (n + S i + 1)%nat); simplify_eq.
    + intros [H | (i & Hi & Ha & [e' He'] & Hh)].
      * by rewrite (catalog_io_refused cache w e).
      * rewrite (catalog_io_handled cache w i e') by done. simpl. fold n. by rewrite Hh.
  - intros v Hv.
    destruct Hcases as [(e' & _ & Hr') | [[_ Hr'] | (i & e' & _ & _ & _ & Hr')]].
    + congruence.
    + rewrite Hv in Hr'. simplify_eq. by eexists.
    + rewrite Hv in Hr'. destruct (stdout (n + S i + 1)%nat); simplify_eq. by eexists.
  - intros H. unfold k. by rewrite accepted_unreadable.
Qed.

(** X15. The task that [refresh] starts ends normally, in the state and
    with the cache that [fetch_and_cache_movies] leaves, when the
    standard output accepts every line.  Its handler catches what a
    refused write raises in the routine or in the line after it, so the
    task raises only what the line of the handler itself raises, the
    last write of the task. *)
Theorem do_refresh_ends w :
  ((∀ n, stdout n = None) →
   program (fst (do_refresh_io w)) = fst (fetch_and_cache_movies (program w))
   ∧ snd (do_refresh_io w) = Ok tt)
  ∧ (∀ e, snd (do_refresh_io w) = Raise e →
       ∃ k, written (fst (do_refresh_io w)) = S k ∧ stdout k = Some e).
Proof.
  split.
  - intros quiet.
    destruct (do_refresh_refines stdout service TMDB_API_KEY today repr quiet w) as [-> ->].
    split; [done | apply refresh_returns].
  - intros e. unfold do_refresh_io, try_except_io.
    match goal with
    | |- context [match ?x with _ => _ end] => destruct x as [w1 [[]|e1]]
    end; [done|].
    unfold print, write. simpl. destruct (stdout (written w1)) as [e'|] eqn:E; [|done].
    intros [= <-]. by exists (written w1).
Qed.

End Refusals.

(** ** The properties on the sample service *)

Lemma sample_accepted d i t :
  d !! "imdb_id" = Some (JStr i) → String.prefix "tt" i = true →
  d !! "title" = Some t → Py.truthy t = true → accepted (JObj d).
Proof.
  intros Hi Hp Ht Htt. exists d, i, t.
  split_and!; try done. by apply prefix_tt_nonempty.
Qed.

Lemma sample_accepted_a : accepted Sample.accepted_a.
Proof. by apply (sample_accepted _ "tt1000000" (JStr "Title A")). Qed.

Lemma sample_accepted_b : accepted Sample.accepted_b.
Proof. by apply (sample_accepted _ "tt2000000" (JStr "Title B")). Qed.

Lemma sample_accepted_a' : accepted Sample.accepted_a'.
Proof. by apply (sample_accepted _ "tt1000000" (JStr "Title A again")). Qed.

(** The run of the specification's example: of the two movies of page 1
    only the first is available and identified, and it is the cache. *)
Example refresh_one_page :
  fetch_and_cache_movies Sample.one_page Sample.key Sample.today Sample.repr Sample.idle
  = ({| issued := [ discover_request Sample.key Sample.today 1;
                    providers_request Sample.key Sample.repr (JNum 10);
                    external_ids_request Sample.key Sample.repr (JNum 10);
                    providers_request Sample.key Sample.repr (JNum 20);
                    discover_request Sample.key Sample.today 2 ];
        final_movies := [Sample.accepted_a];
        all_movies_cache := [Sample.accepted_a] |}, Ok tt).
Proof. vm_compute. reflexivity. Qed.

(** Two pages with the same movies: the identifier is accumulated twice
    and is in the cache once. *)
Example refresh_overlap :
  let s := fst (fetch_and_cache_movies Sample.overlap Sample.key Sample.today
                  Sample.repr Sample.idle) in
  final_movies s = [Sample.accepted_a; Sample.accepted_a]
  ∧ all_movies_cache s = [Sample.accepted_a].
Proof. vm_compute. split; reflexivity. Qed.

(** A result that is not an object makes the statements of its page
    raise: the loop ends there and the movie of page 1 is installed. *)
Example refresh_malformed :
  let s := fst (fetch_and_cache_movies Sample.malformed Sample.key Sample.today
                  Sample.repr Sample.idle) in
  discover_queries (issued s)
  = [discover_request Sample.key Sample.today 1; discover_request Sample.key Sample.today 2]
  ∧ all_movies_cache s = [Sample.accepted_a].
Proof. vm_compute. split; reflexivity. Qed.

Example catalog_one_page :
  catalog Sample.repr [Sample.accepted_a]
  = metas_object [Sample.obj [
      ("id", JStr "tt1000000"); ("type", JStr "movie"); ("name", JStr "Title A");
      ("poster", JNull); ("description", JStr ""); ("releaseInfo", JStr "");
      ("background", JNull) ]].
Proof. vm_compute. reflexivity. Qed.

Lemma deduplicate_first_occurrences_witness :
  deduplicate [Sample.accepted_a; Sample.accepted_b; Sample.accepted_a']
  = Ok [Sample.accepted_a; Sample.accepted_b]
  ∧ ∃ unique_movies,
      deduplicate [Sample.accepted_a; Sample.accepted_b; Sample.accepted_a']
      = Ok unique_movies
      ∧ unique_movies `sublist_of` [Sample.accepted_a; Sample.accepted_b; Sample.accepted_a']
      ∧ NoDup (identifier <$> unique_movies)
      ∧ Forall (λ u, is_Some (identifier u)) unique_movies
      ∧ ∀ h, find (has_identifier h) unique_movies
             = find (has_identifier h)
                 [Sample.accepted_a; Sample.accepted_b; Sample.accepted_a'].
Proof.
  split; [vm_compute; reflexivity|].
  apply (deduplicate_first_occurrences
           [Sample.accepted_a; Sample.accepted_b; Sample.accepted_a']).
  repeat constructor; apply accepted_dedupable.
  - exact sample_accepted_a.
  - exact sample_accepted_b.
  - exact sample_accepted_a'.
Defined.

Lemma falsy_candidate_skipped_witness :
  movie_body Sample.one_page Sample.key Sample.repr
    (JObj (list_to_map [("id", JNum 0); ("title", JStr "Title Z")])) Sample.idle
  = (Sample.idle, Ok Next)
  ∧ movie_body Sample.one_page Sample.key Sample.repr
      (JObj (list_to_map [("id", JNum 30); ("title", JStr "")])) Sample.idle
    = (Sample.idle, Ok Next).
Proof.
  split; apply falsy_candidate_skipped; [left | right]; reflexivity.
Defined.




(** No page is empty and no request fails: the run queries the pages 1
    to 300 and returns. *)
Lemma discover_queries_bounded_witness :
  ∃ s' reqs,
    fetch_and_cache_movies Sample.endless Sample.key Sample.today Sample.repr Sample.idle
    = (s', Ok tt)
    ∧ issued s' = reqs
    ∧ discover_queries reqs = discover_request Sample.key Sample.today <$> seqZ 1 300.
Proof.
  destruct (discover_queries_bounded Sample.endless Sample.key Sample.today Sample.repr
              Sample.idle) as (s' & k & reqs & E & _ & Hi & Hd & Hall).
  exists s', reqs. split_and!; [exact E | exact Hi |].
  rewrite Hall in Hd; [exact Hd|].
  intros n p. eexists. reflexivity.
Defined.

(** The standard output takes every line: the endpoint answers with the
    entry of the cached movie.  It refuses the line with the count, as a
    stream that cannot encode the check mark of that line does: the
    endpoint answers with the empty sequence. *)
Lemma catalog_never_fails_witness :
  snd (catalog_io Cases.quiet Sample.repr [Sample.accepted_a] Cases.boot)
  = Ok (JObj {[ "metas" := JArr (omap (projection Sample.repr) [Sample.accepted_a]) ]})
  ∧ snd (catalog_io (Cases.refuses 1) Sample.repr [Sample.accepted_a] Cases.boot)
    = Ok (JObj {[ "metas" := JArr [] ]}).
Proof.
  destruct (catalog_never_fails Cases.quiet Sample.repr [Sample.accepted_a] Cases.boot)
    as (Hquiet & _).
  destruct (catalog_never_fails (Cases.refuses 1) Sample.repr [Sample.accepted_a] Cases.boot)
    as (_ & _ & Hcount & _).
  split.
  - destruct Hquiet as [H _]; [intros i Hi; reflexivity | exact H].
  - apply (Hcount 0%nat OutputError).
    + simpl. lia.
    + intros i Hi. destruct i as [|i]; [reflexivity | lia].
    + reflexivity.
    + reflexivity.
Defined.

(** C7 as stated fails.  On a closed standard output the line that
    announces the request, outside the [try], raises: the endpoint fails
    outward, for the empty cache as for any other.  So it does when the
    line with the count and the line of the handler are refused. *)
Lemma catalog_fails_outward :
  snd (catalog_io Cases.closed Sample.repr [] Cases.boot) = Raise OutputError
  ∧ snd (catalog_io (λ n, if (n =? 0)%nat then None else Some OutputError)
           Sample.repr [Sample.accepted_a] Cases.boot) = Raise OutputError.
Proof. split; reflexivity. Qed.

Lemma sample_cache_invariant : cache_invariant [Sample.accepted_a; Sample.accepted_b].
Proof.
  split.
  - repeat constructor; [exact sample_accepted_a | exact sample_accepted_b].
  - change (NoDup [Some (JStr "tt1000000"); Some (JStr "tt2000000")]).
    repeat constructor.
    + intros H. apply list_elem_of_singleton in H. discriminate H.
    + intros H. inversion H.
Qed.




(** * Further properties of the refresh routine *)

Section Costs.
Variable service : nat → request → reply.
Variable TMDB_API_KEY : string.
Variable today : string.
Variable repr : json → string.

#[local] Abbreviation movie_body := (movie_body service TMDB_API_KEY repr).
#[local] Abbreviation page_try := (page_try service TMDB_API_KEY today repr).
#[local] Abbreviation page_body := (page_body service TMDB_API_KEY today repr).
#[local] Abbreviation fetch_and_cache_movies :=
  (fetch_and_cache_movies service TMDB_API_KEY today repr).
#[local] Abbreviation providers_request := (providers_request TMDB_API_KEY repr).
#[local] Abbreviation external_ids_request := (external_ids_request TMDB_API_KEY repr).
#[local] Abbreviation discover_request := (discover_request TMDB_API_KEY today).
#[local] Abbreviation page_event_at := (page_event_at service TMDB_API_KEY today).
#[local] Abbreviation lookups := (lookups TMDB_API_KEY).
#[local] Abbreviation lookup_shape := (lookup_shape TMDB_API_KEY).
#[local] Abbreviation request_shape := (request_shape TMDB_API_KEY).
#[local] Abbreviation paid := (paid TMDB_API_KEY).

Ltac run :=
  unfold try_except, requests_get, mbind, M_bind, result_bind, lift, mret,
    M_ret, result_ret, append_final, response_json; simpl.


Lemma lookups_refl n s : lookups n s s.
Proof.
  exists [], []. rewrite advance_nil. split_and!; try done; simpl; lia.
Qed.

Lemma lookups_mono n m s s' : (n ≤ m)%nat → lookups n s s' → lookups m s s'.
Proof.
  intros Hnm (reqs & added & -> & H1 & H2 & H3).
  exists reqs, added. split_and!; try done. lia.
Qed.

Lemma lookups_trans n m s1 s2 s3 :
  lookups n s1 s2 → lookups m s2 s3 → lookups (n + m) s1 s3.
Proof.
  intros (r1 & a1 & -> & ? & ? & ?) (r2 & a2 & -> & ? & ? & ?).
  exists (r1 ++ r2), (a1 ++ a2). rewrite advance_advance.
  split_and!; [done | | | by apply Forall_app].
  all: rewrite !length_app; lia.
Qed.

Lemma providers_shape movie_id : lookup_shape (providers_request movie_id).
Proof. split_and!; [done | done | apply providers_not_discover]. Qed.

Lemma external_ids_shape movie_id : lookup_shape (external_ids_request movie_id).
Proof. split_and!; [done | done | apply external_ids_not_discover]. Qed.

(** One candidate costs at most two lookups, and two when it is appended. *)
Lemma movie_body_cost m s : lookups 1 s (fst (movie_body m s)).
Proof.
  destruct m; try apply lookups_refl.
  unfold movie_body. run.
  destruct (negb (Py.truthy (default JNull (d !! "id"))) ||
            negb (Py.truthy (default JNull (d !! "title")))) eqn:E;
    [apply lookups_refl|].
  set (movie_id := default JNull (d !! "id")).
  unfold check_ott_availability, try_except.
  pose proof (check_ott_try_spec service TMDB_API_KEY repr (JObj d) movie_id s) as H.
  simpl in H.
  assert (Hone : lookups 1 s (advance s [providers_request movie_id] [])).
  { exists [providers_request movie_id], []. split_and!; try done; simpl; try lia.
    constructor; [apply providers_shape | done]. }
  destruct (india_entry _) as [e|].
  - destruct (any_category e).
    + rewrite H, get_imdb_id_spec. simpl. rewrite advance_advance.
      eexists _, _. split; [done|]. split_and!.
      * simpl. lia.
      * simpl. destruct (usable_imdb_id _); simpl; lia.
      * simpl. constructor; [apply providers_shape|].
        constructor; [apply external_ids_shape | constructor].
    + destruct H as (x & -> & _). by destruct x as [[]|].
  - destruct H as (x & -> & _). by destruct x as [[]|].
Qed.

Lemma for_each_movies_cost movies s :
  lookups (length movies) s (fst (for_each movie_body movies s)).
Proof.
  revert s. induction movies as [|m rest IH]; intros s; [apply lookups_refl|].
  simpl for_each. unfold mbind, M_bind.
  pose proof (movie_body_cost m s) as Hm.
  destruct (movie_body m s) as [s1 [c|e]] eqn:E; simpl in Hm.
  - destruct c; simpl.
    + exact (lookups_trans 1 (length rest) _ _ _ Hm (IH s1)).
    + eapply lookups_mono; [|done]. simpl. lia.
  - eapply lookups_mono; [|done]. simpl. lia.
Qed.

Lemma page_body_state page s : fst (page_body page s) = fst (page_try page s).
Proof.
  unfold page_body, try_except.
  destruct (page_try page s) as [s' [c|e]]; [done|]. by destruct e.
Qed.

Lemma page_try_cost page s :
  lookups (results_size (service (length (issued s)) (discover_request page)))
    (advance s [discover_request page] []) (fst (page_try page s)).
Proof.
  unfold page_try, results_size, discover_request.
  set (s1 := advance s _ []).
  unfold requests_get, mbind at 1, M_bind at 1.
  replace ({| issued := _; final_movies := _; all_movies_cache := _ |}) with s1
    by (unfold s1, advance; simpl; by rewrite app_nil_r).
  destruct (service _ _) as [| | [st [data|]]]; simpl; try apply lookups_refl.
  run.
  destruct data; simpl; try apply lookups_refl.
  destruct (d !! "results") as [results|] eqn:E; simpl; [|apply lookups_refl].
  destruct results as [| | | res | movies | d']; simpl; try apply lookups_refl.
  - destruct (negb (String.eqb res "")); simpl; [|apply lookups_refl].
    destruct res as [|c res]; simpl; apply lookups_refl.
  - destruct (negb (bool_decide (movies = []))) eqn:Em; simpl; [|apply lookups_refl].
    pose proof (for_each_movies_cost movies s1) as Hc.
    unfold mbind, M_bind. destruct (for_each movie_body movies s1) as [s2 [[]|e]]; done.
  - destruct (negb (bool_decide (d' = ∅))); simpl; [|apply lookups_refl].
    destruct (map_to_list d') as [|[k v] kvs]; simpl; apply lookups_refl.
Qed.


Lemma paid_refl s : paid s s.
Proof. exists [], []. rewrite advance_nil. split_and!; try done; simpl; lia. Qed.

Lemma lookup_requests_app r1 r2 :
  lookup_requests (r1 ++ r2) = lookup_requests r1 ++ lookup_requests r2.
Proof. apply filter_app. Qed.

Lemma paid_trans s1 s2 s3 : paid s1 s2 → paid s2 s3 → paid s1 s3.
Proof.
  intros (r1 & a1 & -> & ? & ?) (r2 & a2 & -> & ? & ?).
  exists (r1 ++ r2), (a1 ++ a2). rewrite advance_advance.
  split_and!; [done | by apply Forall_app |].
  rewrite lookup_requests_app, !length_app. lia.
Qed.

Lemma lookup_request_shape r : lookup_shape r → request_shape r.
Proof.
  intros (Ht & Hp & Hd). split; [|by right].
  rewrite Hp. apply lookup_singleton_eq.
Qed.

Lemma lookup_requests_all reqs : Forall lookup_shape reqs → lookup_requests reqs = reqs.
Proof.
  unfold lookup_requests. induction 1 as [|r reqs (_ & _ & Hr) _ IH]; [done|].
  rewrite filter_cons_True by done. by rewrite IH.
Qed.

Lemma page_paid page s : paid s (fst (page_body page s)).
Proof.
  rewrite page_body_state.
  destruct (page_try_cost page s) as (reqs & added & -> & _ & H2 & H3).
  rewrite advance_advance. exists (discover_request page :: reqs), added.
  split_and!; [done | |].
  - constructor; [split; [reflexivity | by left]|].
    eapply Forall_impl; [done | apply lookup_request_shape].
  - change (lookup_requests (discover_request page :: reqs)) with (lookup_requests reqs).
    by rewrite lookup_requests_all.
Qed.

Lemma for_each_pages_paid pages s : paid s (fst (for_each page_body pages s)).
Proof.
  revert s. induction pages as [|p rest IH]; intros s; [apply paid_refl|].
  rewrite for_each_pages_step.
  destruct (page_event_at _ _); simpl; try apply page_paid.
  eapply paid_trans; [apply page_paid | apply IH].
Qed.

(** What a run leaves, in terms of its loop. *)
Lemma fetch_and_cache_movies_state s :
  let s1 := fst (for_each page_body (seqZ 1 300) (start s)) in
  fetch_and_cache_movies s
  = ({| issued := issued s1;
        final_movies := final_movies s1;
        all_movies_cache := first_occurrences (final_movies s1) ∅ |}, Ok tt).
Proof.
  destruct (fetch_and_cache_movies_spec service TMDB_API_KEY today repr s)
    as (s1 & q & E & _ & _ & _ & _ & ->).
  by rewrite E.
Qed.

(** X3. Every request a run issues carries the credential, and has a
    time-out: 15 for a discover query and 10 for a lookup. *)
Theorem requests_well_shaped s :
  ∃ reqs,
    issued (fst (fetch_and_cache_movies s)) = issued s ++ reqs
    ∧ Forall request_shape reqs.
Proof.
  rewrite fetch_and_cache_movies_state.
  destruct (for_each_pages_paid (seqZ 1 300) (start s)) as (reqs & added & -> & H & _).
  by exists reqs.
Qed.

(** X4. Every movie a run accumulates was paid by two lookups, and the
    cache it installs holds no more movies than it accumulated: twice the
    size of the cache is at most the number of lookups issued. *)
Theorem movies_paid_by_lookups s :
  let s' := fst (fetch_and_cache_movies s) in
  ∃ reqs,
    issued s' = issued s ++ reqs
    ∧ (2 * length (final_movies s') ≤ length (lookup_requests reqs))%nat
    ∧ (length (all_movies_cache s') ≤ length (final_movies s'))%nat.
Proof.
  rewrite fetch_and_cache_movies_state.
  destruct (for_each_pages_paid (seqZ 1 300) (start s)) as (reqs & added & -> & _ & H).
  exists reqs. simpl. split_and!; [done | done |].
  apply sublist_length, first_occurrences_sublist.
Qed.

(** X5. The loop over the pages never writes the cache and only appends
    to the request log and to the accumulator: the cache a reader sees
    during a run is the one from before the run. *)
Theorem loop_keeps_cache pages s :
  let s' := fst (for_each page_body pages s) in
  all_movies_cache s' = all_movies_cache s
  ∧ issued s `prefix_of` issued s'
  ∧ final_movies s `prefix_of` final_movies s'.
Proof.
  destruct (for_each_pages_paid pages s) as (reqs & added & -> & _).
  simpl. split_and!; [done | by eexists | by eexists].
Qed.

Lemma results_size_results r movies :
  page_event_of r = PageResults movies → results_size r ≠ 0%nat.
Proof.
  unfold page_event_of, results_size.
  destruct r as [| | [st [[]|]]]; try done. simpl.
  destruct (d !! "results") as [[]|]; simpl; try done.
  destruct l; [done|]. simpl. by destruct (_ && _).
Qed.


Lemma for_each_movies_app pre rest s :
  forallb is_object pre = true →
  for_each movie_body (pre ++ rest) s
  = for_each movie_body rest (fst (for_each movie_body pre s)).
Proof.
  revert s. induction pre as [|m pre IH]; intros s Hpre; [done|].
  apply andb_true_iff in Hpre as [Hm Hpre]. destruct m; try done.
  simpl. unfold mbind, M_bind.
  destruct (movie_body_object service TMDB_API_KEY repr d s) as (s1 & -> & _).
  by apply IH.
Qed.


End Costs.

(** ** A run depends on the replies only *)

Section Uniform.
Variable service : nat → request → reply.
Variable TMDB_API_KEY : string.
Variable today : string.
Variable repr : json → string.

#[local] Abbreviation agree := (agree service).
#[local] Abbreviation uniform := (uniform service).
#[local] Abbreviation page_body := (page_body service TMDB_API_KEY today repr).
#[local] Abbreviation fetch_and_cache_movies :=
  (fetch_and_cache_movies service TMDB_API_KEY today repr).

Lemma uniform_ret {A} (a : A) : uniform (mret a).
Proof.
  intros s1 s2 H. split_and!; [done | done |]. exists []. by rewrite !app_nil_r.
Qed.

Lemma uniform_lift {A} (r : result A) : uniform (lift r).
Proof.
  intros s1 s2 H. split_and!; [done | done |]. exists []. by rewrite !app_nil_r.
Qed.

Lemma uniform_bind {A B} (m : M A) (f : A → M B) :
  uniform m → (∀ a, uniform (f a)) → uniform (mbind f m).
Proof.
  intros Hm Hf s1 s2 H. unfold mbind, M_bind.
  destruct (Hm s1 s2 H) as (Hr & Hagree & reqs & H1 & H2).
  destruct (m s1) as [s1' r1], (m s2) as [s2' r2]. simpl in *. subst r2.
  destruct r1 as [a|e].
  - destruct (Hf a s1' s2' Hagree) as (Hr' & Hagree' & reqs' & H1' & H2').
    split_and!; [done | done |]. exists (reqs ++ reqs').
    by rewrite H1', H2', H1, H2, !app_assoc.
  - split_and!; [done | done |]. by exists reqs.
Qed.

Lemma uniform_try_except {A} (m : M A) (handler : exn → M A) :
  uniform m → (∀ e, uniform (handler e)) → uniform (try_except m handler).
Proof.
  intros Hm Hh s1 s2 H. unfold try_except.
  destruct (Hm s1 s2 H) as (Hr & Hagree & reqs & H1 & H2).
  destruct (m s1) as [s1' r1], (m s2) as [s2' r2]. simpl in *. subst r2.
  destruct r1 as [a|e].
  - split_and!; [done | done |]. by exists reqs.
  - destruct (Hh e s1' s2' Hagree) as (Hr' & Hagree' & reqs' & H1' & H2').
    split_and!; [done | done |]. exists (reqs ++ reqs').
    by rewrite H1', H2', H1, H2, !app_assoc.
Qed.

Lemma uniform_for_each {A} (loop_body : A → M flow) (xs : list A) :
  (∀ x, uniform (loop_body x)) → uniform (for_each loop_body xs).
Proof.
  intros Hb. induction xs as [|x rest IH]; simpl; [apply uniform_ret|].
  apply uniform_bind; [done|]. intros [|]; [done | apply uniform_ret].
Qed.

Lemma uniform_requests_get u p t : uniform (requests_get service u p t).
Proof.
  intros s1 s2 [Hf Hs]. unfold requests_get. cbv zeta.
  pose proof (Hs 0%nat {| url := u; params := p; timeout := t |}) as H0.
  rewrite !Nat.add_0_r in H0. rewrite H0. clear H0.
  assert (agree
    {| issued := issued s1 ++ [{| url := u; params := p; timeout := t |}];
       final_movies := final_movies s1; all_movies_cache := all_movies_cache s1 |}
    {| issued := issued s2 ++ [{| url := u; params := p; timeout := t |}];
       final_movies := final_movies s2; all_movies_cache := all_movies_cache s2 |}).
  { split; [done|]. intros k r. simpl. rewrite !length_app. simpl.
    rewrite <- !Nat.add_assoc. apply Hs. }
  destruct (service _ _); simpl; split_and!; try done; by eexists.
Qed.

Lemma uniform_append_final movie : uniform (append_final movie).
Proof.
  intros s1 s2 [Hf Hs]. unfold append_final. simpl.
  split_and!; [done | split; [simpl; by rewrite Hf | done] |].
  exists []. by rewrite !app_nil_r.
Qed.

Ltac uniform_step :=
  first
    [ apply uniform_ret
    | apply uniform_lift
    | apply uniform_requests_get
    | apply uniform_append_final
    | apply uniform_bind; [|intros ?]
    | apply uniform_try_except; [|intros ?]
    | apply uniform_for_each; intros ?
    | match goal with
      | |- context [if ?b then _ else _] => destruct b
      | |- context [match ?e with _ => _ end] => destruct e
      end ].

Lemma uniform_movie_body movie : uniform (movie_body service TMDB_API_KEY repr movie).
Proof.
  unfold movie_body, check_ott_availability, check_ott_try, get_imdb_id.
  repeat uniform_step.
Qed.

Lemma uniform_page_body page : uniform (page_body page).
Proof.
  unfold page_body, page_try.
  repeat first [apply uniform_movie_body | uniform_step].
Qed.

(** Two runs that get the same replies issue the same requests and leave
    the same accumulator. *)
Lemma fetch_and_cache_movies_uniform s1 s2 :
  (∀ k r, service (length (issued s1) + k) r = service (length (issued s2) + k) r) →
  ∃ reqs final,
    fetch_and_cache_movies s1
    = ({| issued := issued s1 ++ reqs; final_movies := final;
          all_movies_cache := first_occurrences final ∅ |}, Ok tt)
    ∧ fetch_and_cache_movies s2
      = ({| issued := issued s2 ++ reqs; final_movies := final;
            all_movies_cache := first_occurrences final ∅ |}, Ok tt).
Proof.
  intros Hs.
  assert (Hstart : agree (start s1) (start s2)) by done.
  destruct (uniform_for_each page_body (seqZ 1 300) uniform_page_body _ _ Hstart)
    as (_ & [Hf _] & reqs & H1 & H2).
  exists reqs, (final_movies (fst (for_each page_body (seqZ 1 300) (start s1)))).
  rewrite !fetch_and_cache_movies_state. rewrite H1, H2, <- Hf. done.
Qed.



End Uniform.

(** * Further properties of the deduplication step *)

Lemma dedup_loop_ok_dedupable movies seen unique_movies :
  is_raise (dedup_loop movies seen unique_movies) = false → Forall dedupable movies.
Proof.
  revert seen unique_movies.
  induction movies as [|m rest IH]; intros seen acc H; [done|].
  simpl in H. destruct m; try done. simpl in H. unfold mbind, result_bind in H.
  destruct (Py.truthy (default JNull (d !! "imdb_id"))) eqn:Et.
  - destruct (Py.hash (default JNull (d !! "imdb_id"))) as [h|e] eqn:Eh; [|done].
    constructor.
    + exists d. split; [done|]. intros v Hv _. rewrite Hv in Eh. simpl in Eh.
      by rewrite Eh.
    + destruct (bool_decide (h ∉ seen)); by eapply IH.
  - constructor; [|by eapply IH].
    exists d. split; [done|]. intros v Hv Htv. rewrite Hv in Et. simpl in Et. congruence.
Qed.

Lemma dedup_loop_exceptions movies seen unique_movies e :
  dedup_loop movies seen unique_movies = Raise e → e = AttributeError ∨ e = TypeError.
Proof.
  revert seen unique_movies.
  induction movies as [|m rest IH]; intros seen acc H; [done|].
  simpl in H. destruct m; simpl in H; try (left; congruence).
  unfold mbind, result_bind in H.
  destruct (Py.truthy (default JNull (d !! "imdb_id"))); [|by eapply IH].
  destruct (default JNull (d !! "imdb_id")); simpl in H;
    try (right; congruence);
    destruct (bool_decide _); by eapply IH.
Qed.

(** X12. The deduplication step returns exactly for the lists of objects
    whose non-empty identifiers are hashable; on any other list it raises
    [AttributeError] (an element that is not an object) or [TypeError]
    (an identifier that is a list or an object). *)
Theorem deduplicate_raises_iff movies :
  (is_raise (deduplicate movies) = false ↔ Forall dedupable movies)
  ∧ ∀ e, deduplicate movies = Raise e → e = AttributeError ∨ e = TypeError.
Proof.
  split; [split|].
  - apply dedup_loop_ok_dedupable.
  - intros H. unfold deduplicate. by rewrite dedup_loop_spec.
  - apply dedup_loop_exceptions.
Qed.

Lemma identified_dedupable m : is_Some (identifier m) → dedupable m.
Proof.
  intros [h Hh]. destruct m; try done. exists d. split; [done|].
  intros v Hv Htv. unfold identifier in Hh. simpl in Hh. rewrite Hv in Hh.
  simpl in Hh. unfold key_of in Hh. rewrite Htv in Hh.
  by destruct (Py.hash v).
Qed.

Lemma first_occurrences_fixed movies seen :
  Forall (λ m, ∃ h, identifier m = Some h ∧ h ∉ seen) movies →
  NoDup (identifier <$> movies) →
  first_occurrences movies seen = movies.
Proof.
  revert seen. induction movies as [|m rest IH]; intros seen Hfresh Hnd; [done|].
  apply Forall_cons in Hfresh as [(h & Hh & Hseen) Hrest].
  rewrite fmap_cons in Hnd. apply NoDup_cons in Hnd as [Hm Hnd].
  simpl. rewrite Hh. rewrite decide_False by done. f_equal.
  apply IH; [|done].
  rewrite Forall_forall in Hrest |- *. intros u Hu.
  destruct (Hrest u Hu) as (k & Hk & Hkseen). exists k. split; [done|].
  intros [Hx|Hx]%elem_of_union; [|done]. apply elem_of_singleton in Hx. subst k.
  apply Hm. rewrite Hh, <- Hk. by apply list_elem_of_fmap_2.
Qed.

Lemma deduplicate_fixed movies :
  Forall (λ m, is_Some (identifier m)) movies →
  NoDup (identifier <$> movies) →
  deduplicate movies = Ok movies.
Proof.
  intros Hid Hnd. unfold deduplicate. rewrite dedup_loop_spec.
  - simpl. f_equal. apply first_occurrences_fixed; [|done].
    eapply Forall_impl; [done|]. simpl. intros m [h Hh]. exists h. split; [done|].
    apply not_elem_of_empty.
  - eapply Forall_impl; [done | apply identified_dedupable].
Qed.

Lemma deduplicate_ok movies unique_movies :
  deduplicate movies = Ok unique_movies →
  unique_movies = first_occurrences movies ∅.
Proof.
  intros H. assert (Hd : Forall dedupable movies).
  { apply (dedup_loop_ok_dedupable movies ∅ []). fold (deduplicate movies). by rewrite H. }
  unfold deduplicate in H. rewrite dedup_loop_spec in H by done. by simplify_eq.
Qed.

Lemma first_occurrences_identified movies seen :
  Forall (λ m, is_Some (identifier m)) (first_occurrences movies seen).
Proof.
  eapply Forall_impl; [apply first_occurrences_fresh|].
  simpl. intros u (h & -> & _). by eexists.
Qed.

(** X10. The deduplication step returns a list unchanged exactly when
    each of its elements has an identifier and no identifier occurs
    twice. *)
Theorem deduplicate_fixed_points movies :
  deduplicate movies = Ok movies
  ↔ Forall (λ m, is_Some (identifier m)) movies ∧ NoDup (identifier <$> movies).
Proof.
  split.
  - intros H. apply deduplicate_ok in H. rewrite H at 1 2.
    split; [apply first_occurrences_identified | apply first_occurrences_NoDup].
  - intros [Hid Hnd]. by apply deduplicate_fixed.
Qed.

(** X11. Deduplicating twice is deduplicating once: the step returns its
    own result unchanged. *)
Theorem deduplicate_idempotent movies unique_movies :
  deduplicate movies = Ok unique_movies →
  deduplicate unique_movies = Ok unique_movies.
Proof.
  intros H. apply deduplicate_ok in H. subst unique_movies.
  apply deduplicate_fixed;
    [apply first_occurrences_identified | apply first_occurrences_NoDup].
Qed.

(** * Further properties of the endpoints *)

Section Endpoints.
Variable service : nat → request → reply.
Variable TMDB_API_KEY : string.
Variable today : string.
Variable repr : json → string.

#[local] Abbreviation fetch_and_cache_movies :=
  (fetch_and_cache_movies service TMDB_API_KEY today repr).
#[local] Abbreviation to_stremio_meta := (to_stremio_meta repr).
#[local] Abbreviation catalog := (catalog repr).
#[local] Abbreviation catalog_entry := (catalog_entry repr).
#[local] Abbreviation projection := (projection repr).

Lemma meta_field_elem k : In k meta_fields → k ∈ meta_fields.
Proof. apply list_elem_of_In. Qed.

(** X14. [to_stremio_meta] reads six fields of a cache element and no
    other: two objects that agree on [imdb_id], [title], [poster_path],
    [overview], [release_date] and [backdrop_path] give the same result,
    so nothing else of a record reaches the catalog. *)
Theorem to_stremio_meta_reads_meta_fields d1 d2 :
  (∀ k, k ∈ meta_fields → d1 !! k = d2 !! k) →
  to_stremio_meta (JObj d1) = to_stremio_meta (JObj d2).
Proof.
  intros H. rewrite !to_stremio_meta_projection.
  unfold projection, catalog_entry.
  rewrite (H "imdb_id"), (H "title"), (H "poster_path"), (H "overview"),
    (H "release_date"), (H "backdrop_path");
    try (apply meta_field_elem; simpl; tauto).
  done.
Qed.

Lemma refresh_cache_invariant s :
  cache_invariant (all_movies_cache (fst (fetch_and_cache_movies s))).
Proof.
  destruct (fetch_and_cache_movies_spec service TMDB_API_KEY today repr s)
    as (s1 & q & _ & _ & Hp & _ & _ & ->).
  simpl. apply paging_start in Hp as [Hacc _]. split.
  - rewrite Forall_forall in Hacc |- *. intros u Hu. apply Hacc.
    eapply elem_of_sublist; [done | apply first_occurrences_sublist].
  - eapply NoDup_fmap_1. rewrite <- identifier_external_id.
    apply first_occurrences_NoDup.
Qed.

Lemma accepted_entries cache :
  Forall accepted cache →
  ∃ entries : list (gmap string json),
    omap projection cache = JObj <$> entries
    ∧ (λ e : gmap string json, e !! "id") <$> entries = external_id <$> cache
    ∧ Forall (λ e : gmap string json,
                e !! "type" = Some (JStr "movie")
                ∧ ∃ i, e !! "id" = Some (JStr i) ∧ String.prefix "tt" i = true)
        entries.
Proof.
  induction 1 as [|m rest Hm _ (entries & Ho & Hids & Hall)]; [by exists []|].
  destruct (accepted_projection repr m Hm) as (d & -> & Hp & Hid & _).
  destruct Hm as (d' & i & t & [= <-] & Hi & Hpre & _).
  exists (catalog_entry d :: entries). split_and!.
  - change (omap projection (JObj d :: rest))
      with (match projection (JObj d) with
            | Some y => y :: omap projection rest
            | None => omap projection rest
            end).
    by rewrite Hp, Ho.
  - rewrite !fmap_cons, Hids. simpl. by rewrite Hid.
  - constructor; [|done]. split; [reflexivity|]. exists i. by rewrite Hid.
Qed.


End Endpoints.

(** ** The further properties on the samples *)




(** A second run on another date sends other queries, and can install
    another cache. *)
Example refresh_on_another_date :
  let first := fst (fetch_and_cache_movies Cases.dated Sample.key Sample.today Sample.repr
                      Sample.idle) in
  (∀ n m r, Cases.dated n r = Cases.dated m r)
  ∧ all_movies_cache first = [Sample.accepted_a]
  ∧ all_movies_cache
      (fst (fetch_and_cache_movies Cases.dated Sample.key "2024-05-02" Sample.repr first))
    = [].
Proof. split_and!; [done | vm_compute; reflexivity | vm_compute; reflexivity]. Qed.



Lemma deduplicate_idempotent_witness :
  deduplicate [Sample.accepted_a; Sample.accepted_b]
  = Ok [Sample.accepted_a; Sample.accepted_b].
Proof.
  apply (deduplicate_idempotent
           [Sample.accepted_a; Sample.accepted_b; Sample.accepted_a']).
  vm_compute. reflexivity.
Defined.

Lemma to_stremio_meta_reads_meta_fields_witness :
  to_stremio_meta Sample.repr (JObj Cases.element_a)
  = to_stremio_meta Sample.repr (JObj Cases.element_a').
Proof.
  apply to_stremio_meta_reads_meta_fields.
  intros k Hk. apply list_elem_of_In in Hk. simpl in Hk.
  destruct Hk as [<-|[<-|[<-|[<-|[<-|[<-|[]]]]]]]; reflexivity.
Defined.

Lemma do_refresh_ends_witness :
  program (fst (do_refresh_io Cases.quiet Sample.one_page Sample.key Sample.today
                  Sample.repr Cases.boot))
  = fst (fetch_and_cache_movies Sample.one_page Sample.key Sample.today Sample.repr
           Sample.idle)
  ∧ snd (do_refresh_io Cases.quiet Sample.one_page Sample.key Sample.today Sample.repr
           Cases.boot) = Ok tt.
Proof.
  destruct (do_refresh_ends Cases.quiet Sample.one_page Sample.key Sample.today Sample.repr
              Cases.boot) as [H _].
  apply H. intros n. reflexivity.
Defined.

(** The truncated page on the sample: the record before the number is
    accepted, the record after it is never looked up. *)
Example refresh_broken_page :
  let s := fst (fetch_and_cache_movies Cases.broken_page Sample.key Sample.today
                  Sample.repr Sample.idle) in
  issued s = [ discover_request Sample.key Sample.today 1;
               providers_request Sample.key Sample.repr (JNum 10);
               external_ids_request Sample.key Sample.repr (JNum 10) ]
  ∧ all_movies_cache s = [Sample.accepted_a].
Proof. vm_compute. split; reflexivity. Qed.

(** * Where the cache comes from *)

Section Provenance.
Variable service : nat → request → reply.
Variable TMDB_API_KEY : string.
Variable today : string.
Variable repr : json → string.

#[local] Abbreviation movie_body := (movie_body service TMDB_API_KEY repr).
#[local] Abbreviation page_try := (page_try service TMDB_API_KEY today repr).
#[local] Abbreviation page_body := (page_body service TMDB_API_KEY today repr).
#[local] Abbreviation fetch_and_cache_movies :=
  (fetch_and_cache_movies service TMDB_API_KEY today repr).
#[local] Abbreviation providers_request := (providers_request TMDB_API_KEY repr).
#[local] Abbreviation discover_request := (discover_request TMDB_API_KEY today).
#[local] Abbreviation page_event_at := (page_event_at service TMDB_API_KEY today).
#[local] Abbreviation vouched_from := (vouched_from service TMDB_API_KEY repr).
#[local] Abbreviation vouched := (vouched service TMDB_API_KEY today repr).

Ltac run :=
  unfold try_except, requests_get, mbind, M_bind, result_bind, lift, mret,
    M_ret, result_ret, append_final, response_json; simpl.

Lemma sourced_refl P s : sourced P s s.
Proof. exists [], []. by rewrite advance_nil. Qed.

Lemma sourced_trans P s1 s2 s3 : sourced P s1 s2 → sourced P s2 s3 → sourced P s1 s3.
Proof.
  intros (r1 & a1 & -> & ?) (r2 & a2 & -> & ?).
  exists (r1 ++ r2), (a1 ++ a2). rewrite advance_advance. by rewrite Forall_app.
Qed.

Lemma sourced_impl (P Q : json → Prop) s s' :
  (∀ m, P m → Q m) → sourced P s s' → sourced Q s s'.
Proof.
  intros H (reqs & added & -> & Ha). exists reqs, added. split; [done|].
  by eapply Forall_impl.
Qed.

Lemma vouched_from_subseteq movies movies' m :
  movies ⊆ movies' → vouched_from movies m → vouched_from movies' m.
Proof.
  intros Hsub (d & i & e & n1 & n2 & -> & Hin & H). exists d, i, e, n1, n2.
  split_and!; try done; try apply H. by apply Hsub.
Qed.

Lemma movie_body_sourced m s : sourced (vouched_from [m]) s (fst (movie_body m s)).
Proof.
  destruct m; try apply sourced_refl.
  unfold movie_body. run.
  destruct (negb (Py.truthy (default JNull (d !! "id"))) ||
            negb (Py.truthy (default JNull (d !! "title")))) eqn:E;
    [apply sourced_refl|].
  set (movie_id := default JNull (d !! "id")).
  unfold check_ott_availability, try_except.
  pose proof (check_ott_try_spec service TMDB_API_KEY repr (JObj d) movie_id s) as H.
  simpl in H.
  assert (Hone : sourced (vouched_from [JObj d]) s (advance s [providers_request movie_id] []))
    by (by eexists _, _).
  destruct (india_entry _) as [e|] eqn:He.
  - destruct (any_category e) eqn:Hc.
    + rewrite H, get_imdb_id_spec. simpl. rewrite advance_advance.
      eexists _, _. split; [done|].
      destruct (usable_imdb_id _) as [i|] eqn:Hi; simpl; [|done].
      repeat constructor. exists d, i, e. eexists _, _.
      split_and!; [done | apply list_elem_of_here | exact He | done | exact Hi].
    + destruct H as (x & -> & _). by destruct x as [[]|].
  - destruct H as (x & -> & _). by destruct x as [[]|].
Qed.

Lemma for_each_movies_sourced movies s :
  sourced (vouched_from movies) s (fst (for_each movie_body movies s)).
Proof.
  revert s. induction movies as [|m rest IH]; intros s; [apply sourced_refl|].
  simpl for_each. unfold mbind, M_bind.
  assert (Hm : sourced (vouched_from (m :: rest)) s (fst (movie_body m s))).
  { eapply sourced_impl; [|apply movie_body_sourced].
    intros u. apply vouched_from_subseteq.
    intros x Hx%list_elem_of_singleton. subst x. apply list_elem_of_here. }
  destruct (movie_body m s) as [s1 [c|e]]; simpl in Hm; [|done].
  destruct c; simpl; [|done].
  eapply sourced_trans; [done|].
  eapply sourced_impl; [|apply IH].
  intros u. apply vouched_from_subseteq.
  intros x Hx. by apply list_elem_of_further.
Qed.

Lemma page_try_sourced page s :
  sourced vouched (advance s [discover_request page] []) (fst (page_try page s)).
Proof.
  unfold page_try, discover_request.
  set (s1 := advance s _ []).
  unfold requests_get, mbind at 1, M_bind at 1.
  replace ({| issued := _; final_movies := _; all_movies_cache := _ |}) with s1
    by (unfold s1, advance; simpl; by rewrite app_nil_r).
  destruct (service _ _) as [| | [st [data|]]] eqn:Hreply; simpl; try apply sourced_refl.
  run.
  destruct data; simpl; try apply sourced_refl.
  destruct (d !! "results") as [results|] eqn:E; simpl; [|apply sourced_refl].
  destruct results as [| | | res | movies | d']; simpl; try apply sourced_refl.
  - destruct (negb (String.eqb res "")); simpl; [|apply sourced_refl].
    destruct res as [|c res]; simpl; apply sourced_refl.
  - destruct (negb (bool_decide (movies = []))) eqn:Em; simpl; [|apply sourced_refl].
    assert (Hc : sourced vouched s1 (fst (for_each movie_body movies s1))).
    { eapply sourced_impl; [|apply for_each_movies_sourced].
      intros u Hu. exists (length (issued s)), page, movies. split; [|done].
      unfold results_of, discover_request. rewrite Hreply. simpl.
      by rewrite E. }
    unfold mbind, M_bind. destruct (for_each movie_body movies s1) as [s2 [[]|e]]; done.
  - destruct (negb (bool_decide (d' = ∅))); simpl; [|apply sourced_refl].
    destruct (map_to_list d') as [|[k v] kvs]; simpl; apply sourced_refl.
Qed.

Lemma page_body_sourced page s : sourced vouched s (fst (page_body page s)).
Proof.
  rewrite page_body_state.
  eapply sourced_trans; [|apply page_try_sourced]. by eexists _, _.
Qed.

Lemma for_each_pages_sourced pages s :
  sourced vouched s (fst (for_each page_body pages s)).
Proof.
  revert s. induction pages as [|p rest IH]; intros s; [apply sourced_refl|].
  rewrite for_each_pages_step.
  destruct (page_event_at _ _); simpl; try apply page_body_sourced.
  eapply sourced_trans; [apply page_body_sourced | apply IH].
Qed.

(** X16. Every movie in the cache a run installs is a record from the
    result list of a reply to a discover query, unchanged but for the
    identifier put under [imdb_id]; some watch-providers reply for the
    record has an entry for [IN] with one of the three categories, and the
    identifier is the one some external-ids reply for the record gives. *)
Theorem cache_is_vouched s :
  Forall vouched (all_movies_cache (fst (fetch_and_cache_movies s))).
Proof.
  rewrite fetch_and_cache_movies_state.
  destruct (for_each_pages_sourced (seqZ 1 300) (start s)) as (reqs & added & -> & Ha).
  simpl. rewrite Forall_forall in Ha |- *. intros u Hu. apply Ha.
  eapply elem_of_sublist; [done | apply first_occurrences_sublist].
Qed.

End Provenance.

(** * The routine with its diagnostic lines *)

Section Guarded.
Variable stdout : nat → option exn.
Variable service : nat → request → reply.
Variable TMDB_API_KEY : string.
Variable today : string.
Variable repr : json → string.

#[local] Abbreviation fetch_and_cache_movies :=
  (fetch_and_cache_movies service TMDB_API_KEY today repr).
#[local] Abbreviation check_ott_availability :=
  (check_ott_availability service TMDB_API_KEY repr).
#[local] Abbreviation movie_body := (movie_body service TMDB_API_KEY repr).
#[local] Abbreviation page_try := (page_try service TMDB_API_KEY today repr).
#[local] Abbreviation page_body := (page_body service TMDB_API_KEY today repr).
#[local] Abbreviation discover_request := (discover_request TMDB_API_KEY today).
#[local] Abbreviation fetch_and_cache_movies_io :=
  (fetch_and_cache_movies_io stdout service TMDB_API_KEY today repr).
#[local] Abbreviation get_imdb_id_io := (get_imdb_id_io stdout service TMDB_API_KEY repr).
#[local] Abbreviation check_ott_try_io := (check_ott_try_io stdout service TMDB_API_KEY repr).
#[local] Abbreviation check_ott_availability_io :=
  (check_ott_availability_io stdout service TMDB_API_KEY repr).
#[local] Abbreviation movie_body_io := (movie_body_io stdout service TMDB_API_KEY repr).
#[local] Abbreviation page_try_io := (page_try_io stdout service TMDB_API_KEY today repr).
#[local] Abbreviation page_body_io := (page_body_io stdout service TMDB_API_KEY today repr).
#[local] Abbreviation write := (write stdout).
#[local] Abbreviation report := (report stdout).
#[local] Abbreviation output_only := (output_only stdout).

(** *** What is appended, whatever is written *)

Lemma appends_ret {A} P (a : A) : appends P (mret a : IO A).
Proof. intros w. apply sourced_refl. Qed.

Lemma appends_silent {A} P (m : M A) :
  (∀ s, sourced P s (fst (m s))) → appends P (silent m).
Proof. intros H w. apply H. Qed.

Lemma appends_write P : appends P write.
Proof. intros w. apply sourced_refl. Qed.

Lemma appends_bind {A B} P (io : IO A) (k : A → IO B) :
  appends P io → (∀ a, appends P (k a)) → appends P (io ≫= k).
Proof.
  intros H Hk w. specialize (H w). unfold mbind, IO_bind.
  destruct (io w) as [w1 [a|e]]; simpl in *; [|done].
  eapply sourced_trans; [done | apply Hk].
Qed.

Lemma appends_report P : appends P report.
Proof.
  apply appends_bind; [apply appends_write | intros _; apply appends_write].
Qed.

(** The statements after a statement without effect run only on what it
    yields. *)
Lemma appends_bind_lift {A B} P (r : result A) (k : A → IO B) :
  (∀ a, r = Ok a → appends P (k a)) → appends P (silent (lift r) ≫= k).
Proof.
  intros Hk w. unfold mbind, IO_bind. rewrite silent_lift.
  destruct r as [a|e]; [by apply Hk | apply sourced_refl].
Qed.

Lemma appends_try_except {A} P (io : IO A) (h : exn → IO A) :
  appends P io → (∀ e, appends P (h e)) → appends P (try_except_io io h).
Proof.
  intros H Hh w. specialize (H w). unfold try_except_io.
  destruct (io w) as [w1 [a|e]]; simpl in *; [done|].
  eapply sourced_trans; [done | apply Hh].
Qed.

Lemma appends_for_each {A} P (body : A → IO flow) xs :
  (∀ x, appends P (body x)) → appends P (for_each_io body xs).
Proof.
  intros H. induction xs as [|x rest IH]; simpl; [apply appends_ret|].
  apply appends_bind; [apply H|]. intros [|]; [apply IH | apply appends_ret].
Qed.

Lemma requests_get_appends P u p t : appends P (silent (requests_get service u p t)).
Proof.
  apply appends_silent. intros s.
  exists [{| url := u; params := p; timeout := t |}], []. split; [|done].
  unfold requests_get, advance. simpl. destruct (service _ _); simpl; by rewrite app_nil_r.
Qed.

Lemma append_final_appends (P : json → Prop) movie :
  P movie → appends P (silent (append_final movie)).
Proof.
  intros H. apply appends_silent. intros s. exists [], [movie]. split; [|by constructor].
  unfold append_final, advance. simpl. by rewrite app_nil_r.
Qed.

(** What the innermost block appends has a string under [imdb_id], with
    the diagnostic lines as without them. *)
Lemma get_imdb_id_io_appends movie movie_id india_providers :
  appends dedupable (get_imdb_id_io movie movie_id india_providers).
Proof.
  unfold get_imdb_id_io.
  apply appends_try_except; [|intros e; apply appends_report].
  apply appends_bind; [apply requests_get_appends | intros ext_response].
  apply appends_bind_lift. intros ext_data _.
  apply appends_bind_lift. intros imdb_id _.
  apply appends_bind_lift. intros usable Hu.
  destruct usable; [|apply appends_ret].
  apply appends_bind_lift. intros movie' Hm.
  apply appends_bind; [|intros _; apply appends_bind_lift; intros; apply appends_report].
  apply append_final_appends.
  destruct (Py.truthy imdb_id); [|done].
  destruct imdb_id as [| | |i| |]; try done.
  destruct movie as [| | | | |d]; try done. simpl in Hm. simplify_eq.
  eexists. split; [done|]. intros v Hv _.
  rewrite lookup_insert_eq in Hv. by simplify_eq.
Qed.

Lemma check_ott_availability_io_appends movie movie_id :
  appends dedupable (check_ott_availability_io movie movie_id).
Proof.
  unfold check_ott_availability_io.
  apply appends_try_except;
    [|intros e; apply appends_bind; [apply appends_report | intros; apply appends_ret]].
  unfold check_ott_try_io.
  apply appends_bind; [apply requests_get_appends | intros prov_response].
  apply appends_bind_lift. intros prov_data _.
  apply appends_bind_lift. intros missing _.
  destruct missing.
  { apply appends_bind; [apply appends_report | intros; apply appends_ret]. }
  apply appends_bind_lift. intros india_providers _.
  apply appends_bind_lift. intros available _.
  destruct (negb available).
  { apply appends_bind; [apply appends_report | intros; apply appends_ret]. }
  apply appends_bind; [apply get_imdb_id_io_appends | intros; apply appends_ret].
Qed.

Lemma movie_body_io_appends movie : appends dedupable (movie_body_io movie).
Proof.
  unfold movie_body_io.
  apply appends_bind_lift. intros movie_id _.
  apply appends_bind_lift. intros title _.
  destruct (_ || _); [apply appends_ret | apply check_ott_availability_io_appends].
Qed.

Lemma page_body_io_appends page : appends dedupable (page_body_io page).
Proof.
  unfold page_body_io.
  apply appends_bind; [apply appends_report | intros _].
  apply appends_try_except.
  2: { intros e.
       destruct e; (apply appends_bind; [apply appends_report | intros; apply appends_ret]). }
  unfold page_try_io.
  apply appends_bind; [apply appends_report | intros _].
  apply appends_bind; [apply requests_get_appends | intros response].
  apply appends_bind; [apply appends_report | intros _].
  apply appends_bind_lift. intros data _.
  apply appends_bind_lift. intros results _.
  apply appends_bind_lift. intros n _.
  apply appends_bind; [apply appends_report | intros _].
  destruct (negb _).
  { apply appends_bind; [apply appends_report | intros; apply appends_ret]. }
  apply appends_bind_lift. intros movies _.
  apply appends_bind; [|intros; apply appends_ret].
  apply appends_for_each, movie_body_io_appends.
Qed.

(** *** What is raised, whatever is requested *)

Lemma output_only_ret {A} (a : A) : output_only (mret a : IO A).
Proof. by intros w e. Qed.

Lemma output_only_write : output_only write.
Proof.
  intros w e. unfold write. simpl.
  destruct (stdout (written w)) as [e'|] eqn:E; [|done]. intros [= <-]. by eexists.
Qed.

Lemma output_only_bind {A B} (io : IO A) (k : A → IO B) :
  output_only io → (∀ a, output_only (k a)) → output_only (io ≫= k).
Proof.
  intros H Hk w e. specialize (H w). unfold mbind, IO_bind.
  destruct (io w) as [w1 [a|e1]]; simpl in *; [apply Hk|].
  intros [= <-]. by apply H.
Qed.

Lemma output_only_report : output_only report.
Proof.
  apply output_only_bind; [apply output_only_write | intros _; apply output_only_write].
Qed.

(** A [try] raises only what its handler raises. *)
Lemma output_only_try_except {A} (io : IO A) (h : exn → IO A) :
  (∀ e, output_only (h e)) → output_only (try_except_io io h).
Proof.
  intros Hh w e. unfold try_except_io.
  destruct (io w) as [w1 [a|e1]]; simpl; [done | apply Hh].
Qed.

Lemma output_only_for_each {A} (body : A → IO flow) xs :
  (∀ x, output_only (body x)) → output_only (for_each_io body xs).
Proof.
  intros H. induction xs as [|x rest IH]; simpl; [apply output_only_ret|].
  apply output_only_bind; [apply H|]. intros [|]; [apply IH | apply output_only_ret].
Qed.

(** A page raises only what its first line and the lines of its handlers
    raise. *)
Lemma page_body_io_output_only page : output_only (page_body_io page).
Proof.
  unfold page_body_io.
  apply output_only_bind; [apply output_only_report | intros _].
  apply output_only_try_except. intros e.
  destruct e;
    (apply output_only_bind; [apply output_only_report | intros; apply output_only_ret]).
Qed.

(** The routine raises only what a refused write raises: the loop does,
    the accumulator it leaves can be deduplicated, and the rest is the
    last line. *)
Lemma fetch_and_cache_movies_io_output_only : output_only fetch_and_cache_movies_io.
Proof.
  intros w e. unfold fetch_and_cache_movies_io.
  unfold mbind at 1, IO_bind at 1.
  destruct (report w) as [w1 [[]|e1]] eqn:E1.
  2: { intros [= <-]. apply (output_only_report w). by rewrite E1. }
  unfold mbind at 1, IO_bind at 1. cbn [silent set_final_movies fst snd program written].
  set (w2 := {| program := _; written := written w1 |}).
  unfold mbind at 1, IO_bind at 1.
  pose proof (appends_for_each dedupable page_body_io (seqZ 1 300) page_body_io_appends w2)
    as (reqs & added & Hst & Hadd).
  pose proof (output_only_for_each page_body_io (seqZ 1 300) page_body_io_output_only w2)
    as Hout.
  destruct (for_each_io page_body_io (seqZ 1 300) w2) as [w3 [[]|e3]].
  2: { intros [= <-]. by apply Hout. }
  simpl in Hst.
  unfold mbind at 1, IO_bind at 1. cbn [silent get_final_movies fst snd].
  unfold mbind at 1, IO_bind at 1. rewrite silent_lift.
  assert (Hd : deduplicate (final_movies (program w3))
               = Ok (first_occurrences (final_movies (program w3)) ∅)).
  { unfold deduplicate. rewrite dedup_loop_spec; [done|]. by rewrite Hst. }
  rewrite Hd.
  unfold mbind at 1, IO_bind at 1. cbn [silent set_all_movies_cache fst snd].
  apply output_only_report.
Qed.


End Guarded.


